(** * cate-desktop: response translators, task list entry, the
      external-object lifecycle bridge, the main process and panels

    Shallow embedding of
    - [src/renderer/webapi/apis/WorkspaceAPI.ts]      ([responseToWorkspace]
      and the methods of [WorkspaceAPI]),
    - [src/renderer/webapi/apis/BackendConfigAPI.ts]  ([fromPythonConfig],
      [toPythonConfig] and the methods of [BackendConfigAPI]),
    - the [TaskComponent] React component ([isRunning], [isMakingProgress],
      [render]),
    - the abstract [ExternalObjectComponent] React component,
    - [src/main/main.ts] (the command line and the preferences file),
    - the [WorkspacePanel], [OperationsPanel] and [VariablesPanel]
      components (their handlers and filters),
    followed by the properties proved about them. *)

From Stdlib Require Import QArith.
From stdpp Require Import gmap strings list fin_maps functions pretty.

Set Warnings "-register-all,-clear-no-such-hyp".
Local Open Scope string_scope.

(* ===================================================================== *)
(** ** JavaScript values as they cross the WebAPI boundary *)
(* ===================================================================== *)

Module Js.

(** A JSON-like JavaScript value.  An object is a finite map from property
    names to values; a property may be present and hold [undefined], which
    differs from the property being absent ([Object.keys], [in]).
    A number is a finite number (a rational), [NaN] or an infinity. *)
Inductive Value : Type :=
| Undefined
| Null
| Bool (b : bool)
| Number (q : Q)
| NaN
| Infinity (negative : bool)
| Str (s : string)
| Object (fields : gmap string Value).

(** [ToBoolean]: the falsy values are [undefined], [null], [false], [0],
    [NaN] and the empty string. *)
Definition truthy (v : Value) : bool :=
  match v with
  | Undefined | Null | NaN => false
  | Bool b => b
  | Number q => negb (Qeq_bool q 0)
  | Infinity _ => true
  | Str s => negb (String.eqb s "")
  | Object _ => true
  end.

(** Property read [v.k] on a value that is neither [null] nor [undefined]:
    a missing property reads as [undefined]; the property names used by
    the translators are not defined on any primitive wrapper. *)
Definition get (v : Value) (k : string) : Value :=
  match v with
  | Object fields => default Undefined (fields !! k)
  | _ => Undefined
  end.

(** The own property names of a value ([Object.keys]). *)
Definition keys (v : Value) : gset string :=
  match v with
  | Object fields => dom fields
  | _ => ∅
  end.

End Js.

(* ===================================================================== *)
(** ** WebAPIClient (the job promise of a remote call) *)
(* ===================================================================== *)

Module WebAPIClient.
Import Js.

(** Modelled from the spec: the class [WebAPIClient] and the module [Job]
    are not part of the sources at hand.  A remote call is presented as a
    single handle that resolves to a typed result: the transport delivers
    at most one terminal outcome, a success value or a failure; the
    response payload of a success is translated at the boundary, by the
    translator handed to the call when there is one, and the handle
    resolves with the result; a failure rejects it.  Progress
    notifications come before the terminal outcome and do not change
    it. *)
Inductive Terminal : Type :=
| Success (response : Value)
| Failure (failure : Value).

Inductive JobPromise : Type :=
| Pending
| Resolved (value : Value)
| Rejected (failure : Value).

Definition call (method : string) (params : list Value) (onProgress : bool)
    (transformer : option (Value → Value)) (outcome : option Terminal)
  : JobPromise :=
  match outcome with
  | None => Pending
  | Some (Success response) =>
      Resolved match transformer with
               | Some translate => translate response
               | None => response
               end
  | Some (Failure failure) => Rejected failure
  end.

End WebAPIClient.

(* ===================================================================== *)
(** ** WorkspaceAPI.ts *)
(* ===================================================================== *)

Module WorkspaceAPI.
Import Js WebAPIClient.

Definition responseToWorkspace (workspaceResponse : Value) : Value :=
  if negb (truthy workspaceResponse) then Null
  else Object
    (<["baseDir" := get workspaceResponse "base_dir"]>
    (<["description" := get workspaceResponse "description"]>
    (<["isScratch" := get workspaceResponse "is_scratch"]>
    (<["isModified" := get workspaceResponse "is_modified"]>
    (<["isSaved" := get workspaceResponse "is_saved"]>
    (<["workflow" := get workspaceResponse "workflow"]>
    (<["resources" := get workspaceResponse "resources"]> ∅))))))).



(** The methods of the class [WorkspaceAPI]; the last argument is the
    terminal outcome that the transport delivers, if any. *)
Definition newWorkspace (baseDir : Value) : option Terminal → JobPromise :=
  call "new_workspace" [baseDir] false (Some responseToWorkspace).

Definition openWorkspace (baseDir : Value) : option Terminal → JobPromise :=
  call "open_workspace" [baseDir] true (Some responseToWorkspace).

Definition closeWorkspace (baseDir : Value) : option Terminal → JobPromise :=
  call "close_workspace" [baseDir] false None.

Definition saveWorkspace (baseDir : Value) : option Terminal → JobPromise :=
  call "save_workspace" [baseDir] false (Some responseToWorkspace).

Definition saveWorkspaceAs (baseDir toDir : Value)
  : option Terminal → JobPromise :=
  call "save_workspace_as" [baseDir; toDir] true (Some responseToWorkspace).

Definition cleanWorkspace (baseDir : Value) : option Terminal → JobPromise :=
  call "clean_workspace" [baseDir] false (Some responseToWorkspace).

Definition setWorkspaceResource (baseDir resName opName opArgs : Value)
  : option Terminal → JobPromise :=
  call "set_workspace_resource" [baseDir; resName; opName; opArgs] true
    (Some responseToWorkspace).

Definition renameWorkspaceResource (baseDir resName newResName : Value)
  : option Terminal → JobPromise :=
  call "rename_workspace_resource" [baseDir; resName; newResName] false
    (Some responseToWorkspace).

Definition deleteWorkspaceResource (baseDir resName : Value)
  : option Terminal → JobPromise :=
  call "delete_workspace_resource" [baseDir; resName] false
    (Some responseToWorkspace).

Definition getWorkspaceVariableStatistics
    (baseDir resName varName varIndex : Value)
  : option Terminal → JobPromise :=
  call "get_workspace_variable_statistics"
    [baseDir; resName; varName; varIndex] false None.

End WorkspaceAPI.

(* ===================================================================== *)
(** ** BackendConfigAPI.ts *)
(* ===================================================================== *)

Module BackendConfigAPI.
Import Js WebAPIClient.

Definition fromPythonConfig (configResponse : Value) : Value :=
  if negb (truthy configResponse) then Null
  else Object
    (<["dataStoresPath" := get configResponse "data_stores_path"]>
    (<["useWorkspaceImageryCache" :=
         get configResponse "use_workspace_imagery_cache"]> ∅)).

Definition toPythonConfig (backendConfig : Value) : Value :=
  if negb (truthy backendConfig) then Object ∅
  else Object
    (<["data_stores_path" := get backendConfig "dataStoresPath"]>
    (<["use_workspace_imagery_cache" :=
         get backendConfig "useWorkspaceImageryCache"]> ∅)).

(** The methods of the class [BackendConfigAPI]. *)
Definition getBackendConfig : option Terminal → JobPromise :=
  call "get_config" [] false (Some fromPythonConfig).

Definition setBackendConfig (config : Value) : option Terminal → JobPromise :=
  call "set_config" [toPythonConfig config] false None.

End BackendConfigAPI.

(* ===================================================================== *)
(** ** TaskComponent (task list entry) *)
(* ===================================================================== *)

Module TaskComponent.

(** Modelled from the spec: the declaration of [JobStatusEnum]
    (webapi/Job) is not part of the sources at hand; the statuses are the
    ones of the job life cycle NEW, SUBMITTED, IN_PROGRESS and the terminal
    SUCCEEDED, FAILED, CANCELLED. *)
Inductive JobStatusEnum : Type :=
| NEW | SUBMITTED | IN_PROGRESS | SUCCEEDED | FAILED | CANCELLED.

#[export] Instance JobStatusEnum_eq_dec : EqDecision JobStatusEnum.
Proof. solve_decision. Defined.

(** The fields of [TaskState] that the component reads.  The work
    counters are finite numbers; the rounding of floating-point
    arithmetic is not modelled. *)
Record JobProgress : Type := {
  worked : Q;
  total : Q;
  message : option string;
}.

Record JobFailure : Type := {
  failure_message : option string;
}.

Record TaskState : Type := {
  title : option string;
  status : JobStatusEnum;
  progress : option JobProgress;
  failure : option JobFailure;
}.

(** What React renders: the elements the component creates. *)
Inductive Intent : Type := SUCCESS.

Inductive Handler : Type :=
| onCancelJob (jobId : Z)
| onRemoveJob (jobId : Z).

#[export] Instance Handler_eq_dec : EqDecision Handler.
Proof. solve_decision. Defined.

Inductive Element : Type :=
| ProgressBar (intent : option Intent) (value : option Q)
| Button (iconName : string) (onClick : Handler) (children : list Element)
| div (children : list Element)
| text (s : string).

(** A [null] child renders nothing. *)
Definition child (e : option Element) : list Element :=
  match e with Some x => [x] | None => [] end.

(** A string is truthy when it is defined and not empty. *)
Definition nonEmpty (s : option string) : option string :=
  match s with
  | Some x => if String.eqb x "" then None else Some x
  | None => None
  end.

Definition isRunning (tastState : TaskState) : bool :=
  bool_decide (status tastState = NEW) ||
  bool_decide (status tastState = SUBMITTED) ||
  bool_decide (status tastState = IN_PROGRESS).

Definition isMakingProgress (tastState : TaskState) : bool :=
  bool_decide (status tastState = IN_PROGRESS) &&
  match progress tastState with
  | Some p => negb (Qeq_bool (worked p) 0) && negb (Qle_bool (total p) 0)
  | None => false
  end.

Definition render (taskState : TaskState) (jobId : Z) : Element :=
  let activity :=
    if isRunning taskState then
      if isMakingProgress taskState then
        match progress taskState with
        | Some p =>
            let progress := ProgressBar (Some SUCCESS)
                              (Some (worked p / total p)%Q) in
            let cancelButton :=
              Button "pt-icon-cross" (onCancelJob jobId) [text "Cancel"] in
            let cancelableProgress :=
              div [div [progress]; div [cancelButton]] in
            let progressMag :=
              match nonEmpty (message p) with
              | Some msg => Some (div [text msg])
              | None => None
              end in
            Some (div (cancelableProgress :: child progressMag))
        | None => Some (ProgressBar None None) (* not reached:
            isMakingProgress holds only with a progress record *)
        end
      else Some (ProgressBar None None)
    else None in
  let errorMsg :=
    match failure taskState with
    | Some f =>
        match nonEmpty (failure_message f) with
        | Some msg =>
            Some (div [div [text msg]; div [];
                       Button "cross" (onRemoveJob jobId) []])
        | None => None
        end
    | None => None
    end in
  let title := match nonEmpty (title taskState) with
               | Some t => t
               | None => "Task #" +:+ pretty jobId
               end in
  div (text title :: child activity ++ child errorMsg).

(** Observations on the rendered tree: the values of the progress bars in
    document order ([None] for a bar without a value), and the click
    handlers of the buttons. *)
Fixpoint progressBars (e : Element) : list (option Q) :=
  match e with
  | ProgressBar _ value => [value]
  | Button _ _ children => flat_map progressBars children
  | div children => flat_map progressBars children
  | text _ => []
  end.

Fixpoint handlers (e : Element) : list Handler :=
  match e with
  | ProgressBar _ _ => []
  | Button _ onClick children => onClick :: flat_map handlers children
  | div children => flat_map handlers children
  | text _ => []
  end.

(** The task has a determinate progress record. *)
Definition determinate (t : TaskState) : Prop :=
  status t = IN_PROGRESS ∧
  ∃ p, progress t = Some p ∧ ¬ (worked p == 0)%Q ∧ (0 < total p)%Q.

(** The texts of the rendered tree, in document order. *)
Fixpoint texts (e : Element) : list string :=
  match e with
  | ProgressBar _ _ => []
  | Button _ _ children => flat_map texts children
  | div children => flat_map texts children
  | text s => [s]
  end.

(** The message of the failure record of a task, when it is present and
    not empty. *)
Definition failureMessage (t : TaskState) : option string :=
  match failure t with
  | Some f => nonEmpty (failure_message f)
  | None => None
  end.

End TaskComponent.

(* ===================================================================== *)
(** ** ExternalObjectComponent (the lifecycle bridge) *)
(* ===================================================================== *)

Module ExternalObjectComponent.

(** *** The part of the DOM the component touches *)

(** An [HTMLElement] is a handle; the document records the parent of every
    attached element and the [id] attribute of every element. *)
Definition Node := nat.

Inductive Exn : Type :=
| Error (msg : string)              (* [throw new Error(msg)] *)
| AssertionError                    (* thrown by [assert.ok] *)
| HierarchyRequestError             (* DOMException of [appendChild] *)
| NotFoundError.                    (* DOMException of [removeChild] *)

(** [walk fuel parents a n]: [a] is [n] or one of the ancestors of [n]
    within [fuel] steps. *)
Fixpoint walk (fuel : nat) (parents : gmap Node Node) (a n : Node) : bool :=
  bool_decide (n = a) ||
  match fuel with
  | O => false
  | S fuel' =>
      match parents !! n with
      | Some q => walk fuel' parents a q
      | None => false
      end
  end.

(** [parent.contains(node)]: [node] is [parent] or a descendant of it. *)
Definition dom_contains (parents : gmap Node Node) (parent node : Node) : bool :=
  walk (S (size parents)) parents parent node.

(** *** Store objects *)

(** An [ExternalObjectStore] is a plain JavaScript object used as a map
    from id to entry; the default cache of the class is [{}].  Besides its
    own properties, which are the registered entries, [k in store] and
    [store[k]] find what every plain object inherits from
    [Object.prototype]: the members named here, all of them functions
    except [__proto__], which is [Object.prototype] itself.  The stores
    handed in through the props are taken to be plain objects as well. *)
Definition Object_prototype : list string :=
  ["constructor"; "__defineGetter__"; "__defineSetter__"; "hasOwnProperty";
   "__lookupGetter__"; "__lookupSetter__"; "isPrototypeOf";
   "propertyIsEnumerable"; "toString"; "valueOf"; "__proto__";
   "toLocaleString"].

Definition inherited (k : string) : bool :=
  bool_decide (k ∈ Object_prototype).

(** *** Props, store entries and stores *)

Section Bridge.
(** [E]: the external object; [ES]: its state; [PS]: the props of the
    concrete component besides those of
    [IExternalObjectComponentProps]. *)
Context {E ES PS : Type}.

Record Props : Type := {
  id : string;
  externalObjectStore : option nat;   (* reference to the injected store *)
  debug : bool;
  own : PS;
}.

Record ExternalObjectRef : Type := {
  object : E;
  state : option ES;
  container : option Node;
}.

(** The own properties of a store. *)
Abbreviation Store := (gmap string ExternalObjectRef).

(** What [store[k]] finds besides [undefined]: the entry that is the own
    property [k], or else the inherited member of that name.  A member has
    no properties [object] and [container], so these read as [undefined];
    it is an object, so that a property [state] can be assigned to it and
    read again. *)
Inductive Found : Type :=
| Entry (r : ExternalObjectRef)
| Member (k : string).

Definition found_object (f : Found) : option E :=
  match f with
  | Entry r => Some (object r)
  | Member _ => None
  end.

Definition found_container (f : Found) : option Node :=
  match f with
  | Entry r => container r
  | Member _ => None
  end.

(** The store objects that exist: the static default cache of the class
    and the stores handed in through props. *)
Inductive StoreLoc : Type :=
| DEFAULT_EXTERNAL_OBJECT_CACHE
| InjectedStore (ref : nat).

#[export] Instance StoreLoc_eq_dec : EqDecision StoreLoc.
Proof. solve_decision. Defined.

(** *** What the component does to its surroundings *)

Inductive Event : Type :=
| ConsoleLog (msg : string) (id : string)
| StoreIn (s : StoreLoc) (k : string)                 (* [k in store] *)
| StoreGet (s : StoreLoc) (k : string)                (* [store[k]] *)
| StoreSet (s : StoreLoc) (k : string) (r : ExternalObjectRef)
| StoreDelete (s : StoreLoc) (k : string)             (* [delete store[k]] *)
| RefSetState (s : StoreLoc) (k : string) (st : ES)   (* [ref.state = st] *)
| MemberSetState (k : string) (st : ES)     (* the same on a member *)
| CallNewContainer (id : string)
| CallNewExternalObject (parentContainer : Node) (container : option Node)
| CallExternalObjectMounted
    (o : option E) (parentContainer : Node) (container : option Node)
| CallExternalObjectUnmounted
    (o : option E) (parentContainer : Node) (container : option Node)
| CallUpdateExternalObject
    (o : option E) (prevState : option ES) (nextState : ES)
    (parentContainer : option Node) (container : option Node).

(** The store an event reads or writes, if it is a store access. *)
Definition store_of (ev : Event) : option StoreLoc :=
  match ev with
  | StoreIn s _ | StoreGet s _ | StoreSet s _ _ | StoreDelete s _
  | RefSetState s _ _ => Some s
  | _ => None
  end.

(** The stores read or written in a trace, one per access. *)
Definition accesses (l : list Event) : list StoreLoc := omap store_of l.

(** The running system: the fields of the component instance ([this])
    together with the stores, the document, the [state] properties that
    were assigned to members of [Object.prototype] (the members are shared
    by all stores) and the number of calls of [newContainer] so far.
    [Object.prototype] itself is taken to have no properties [object],
    [container] and [state], and its members none named [object] or
    [container]. *)
Record Machine : Type := {
  this_props : Props;
  this_parentContainer : option Node;
  heap : StoreLoc → Store;
  parentNode : gmap Node Node;
  idAttr : gmap Node string;
  members : gmap string ES;
  created : nat;
}.

Definition set_props (p : Props) (m : Machine) : Machine :=
  {| this_props := p; this_parentContainer := this_parentContainer m;
     heap := heap m; parentNode := parentNode m; idAttr := idAttr m;
     members := members m; created := created m |}.

Definition set_parentContainer (pc : option Node) (m : Machine) : Machine :=
  {| this_props := this_props m; this_parentContainer := pc;
     heap := heap m; parentNode := parentNode m; idAttr := idAttr m;
     members := members m; created := created m |}.

Definition set_heap (h : StoreLoc → Store) (m : Machine) : Machine :=
  {| this_props := this_props m;
     this_parentContainer := this_parentContainer m;
     heap := h; parentNode := parentNode m; idAttr := idAttr m;
     members := members m; created := created m |}.

Definition set_parentNode (d : gmap Node Node) (m : Machine) : Machine :=
  {| this_props := this_props m;
     this_parentContainer := this_parentContainer m;
     heap := heap m; parentNode := d; idAttr := idAttr m;
     members := members m; created := created m |}.

Definition set_members (ms : gmap string ES) (m : Machine) : Machine :=
  {| this_props := this_props m;
     this_parentContainer := this_parentContainer m;
     heap := heap m; parentNode := parentNode m; idAttr := idAttr m;
     members := ms; created := created m |}.

Definition set_created (n : nat) (m : Machine) : Machine :=
  {| this_props := this_props m;
     this_parentContainer := this_parentContainer m;
     heap := heap m; parentNode := parentNode m; idAttr := idAttr m;
     members := members m; created := n |}.

(** *** A state, exception and trace monad *)

(** A run returns, throws, or assigns to a property of [Object.prototype]
    (or replaces the prototype of a store).  After such an assignment every
    object of the program inherits the new property; the model does not
    describe that, so the run is followed no further:
    [PrototypeChanged]. *)
Inductive Result (A : Type) : Type :=
| Returned (a : A)
| Thrown (e : Exn)
| PrototypeChanged.
Global Arguments Returned {A} a.
Global Arguments Thrown {A} e.
Global Arguments PrototypeChanged {A}.

Record Outcome (A : Type) : Type := {
  result : Result A;
  final : Machine;
  log : list Event;
}.
Global Arguments Build_Outcome {A} _ _ _.
Global Arguments result {A} _.
Global Arguments final {A} _.
Global Arguments log {A} _.

Definition M (A : Type) : Type := Machine → Outcome A.

Definition ret {A} (a : A) : M A :=
  fun m => Build_Outcome (Returned a) m [].

Definition throw {A} (e : Exn) : M A :=
  fun m => Build_Outcome (Thrown e) m [].

Definition leave {A} : M A :=
  fun m => Build_Outcome PrototypeChanged m [].

Definition bind {A B} (c : M A) (k : A → M B) : M B :=
  fun m =>
    match c m with
    | Build_Outcome (Returned a) m1 l1 =>
        match k a m1 with
        | Build_Outcome r m2 l2 => Build_Outcome r m2 (l1 ++ l2)
        end
    | Build_Outcome (Thrown e) m1 l1 => Build_Outcome (Thrown e) m1 l1
    | Build_Outcome PrototypeChanged m1 l1 =>
        Build_Outcome PrototypeChanged m1 l1
    end.

Definition read {A} (f : Machine → A) : M A :=
  fun m => Build_Outcome (Returned (f m)) m [].

Definition write (f : Machine → Machine) : M unit :=
  fun m => Build_Outcome (Returned tt) (f m) [].

Definition emit (ev : Event) : M unit :=
  fun m => Build_Outcome (Returned tt) m [ev].

Definition when (b : bool) (c : M unit) : M unit :=
  if b then c else ret tt.

End Bridge.

Global Arguments Props : clear implicits.
Global Arguments ExternalObjectRef : clear implicits.
Global Arguments Found : clear implicits.
Global Arguments Event : clear implicits.
Global Arguments Machine : clear implicits.
Global Arguments Outcome : clear implicits.
Global Arguments M : clear implicits.

Declare Scope bridge_scope.
Delimit Scope bridge_scope with bridge.
Notation "x <- c ;; k" := (bind c (fun x => k))
  (at level 100, c at next level, right associativity) : bridge_scope.
Notation "c ;; k" := (bind c (fun _ => k))
  (at level 100, right associativity) : bridge_scope.

(** *** The methods a concrete component supplies *)

(** The abstract and overridable methods of the class.  A concrete
    component (globe, map, plot) implements them; they may read
    [this.props], and [newContainer] gets the number of containers made
    before, so that it can make a new element at each call, as
    [document.createElement] does.  The three notification methods
    [updateExternalObject],
    [externalObjectMounted] and [externalObjectUnmounted] return nothing:
    their calls are recorded in the trace with their arguments.  The
    methods of a concrete component are taken to return normally and to
    leave the stores, the fields of the instance and the position of the
    parent containers and containers in the document alone. *)
Class Subclass (E ES PS : Type) : Type := {
  newContainer : Props PS → string → nat → option Node;
  newExternalObject : Props PS → Node → option Node → E;
  propsToExternalObjectState : Props PS → ES;
}.

Section Methods.
Context {E ES PS : Type} `{!Subclass E ES PS}.
Local Open Scope bridge_scope.

Abbreviation Ref := (ExternalObjectRef E ES).
Abbreviation Act := (M E ES PS).

(** Modelled from the spec: the module [common/assert] is not part of
    the sources at hand; [assert.ok(value)] fails fast, it throws when
    [value] is missing and returns otherwise. *)
Definition assert_ok {A} (value : option A) : Act A :=
  match value with
  | Some v => ret v
  | None => throw AssertionError
  end.

(** **** DOM calls *)

(** [element.id]: the [id] attribute, the empty string when unset. *)
Definition dom_id (n : Node) : Act string :=
  read (fun m => default "" (idAttr m !! n)).

Definition contains (parent node : Node) : Act bool :=
  read (fun m => dom_contains (parentNode m) parent node).

(** [parent.appendChild(node)] moves [node] below [parent]; it throws
    when [node] is [parent] or one of its ancestors. *)
Definition appendChild (parent node : Node) : Act unit :=
  b <- read (fun m => dom_contains (parentNode m) node parent);;
  if b : bool then throw HierarchyRequestError
  else write (fun m => set_parentNode (<[node := parent]> (parentNode m)) m).

(** [parent.removeChild(node)] throws unless [node] is a child of
    [parent]. *)
Definition removeChild (parent node : Node) : Act unit :=
  q <- read (fun m => parentNode m !! node);;
  if bool_decide (q = Some parent)
  then write (fun m => set_parentNode (delete node (parentNode m)) m)
  else throw NotFoundError.

(** **** Store accesses *)

(** [k in store]: an own property or an inherited member. *)
Definition store_in (s : StoreLoc) (k : string) : Act bool :=
  emit (StoreIn s k);;
  read (fun m => match heap m s !! k with
                 | Some _ => true
                 | None => inherited k
                 end).

(** [store[k]]: the own property, else the inherited member, else
    [undefined]. *)
Definition store_get (s : StoreLoc) (k : string)
  : Act (option (Found E ES)) :=
  emit (StoreGet s k);;
  read (fun m => match heap m s !! k with
                 | Some r => Some (Entry r)
                 | None => if inherited k then Some (Member k) else None
                 end).

(** [store[k] = r] makes [r] the own property [k]; for [__proto__] it
    replaces the prototype of the store instead. *)
Definition store_set (s : StoreLoc) (k : string) (r : Ref) : Act unit :=
  emit (StoreSet s k r);;
  if String.eqb k "__proto__" then leave
  else write (fun m => set_heap (<[s := <[k := r]> (heap m s)]> (heap m)) m).

Definition store_delete (s : StoreLoc) (k : string) : Act unit :=
  emit (StoreDelete s k);;
  write (fun m => set_heap (<[s := delete k (heap m s)]> (heap m)) m).

(** [externalObjectRef.state = nextState], where [externalObjectRef] is
    the entry object read from [store[k]]: the entry in the store
    changes with it (an entry object is referenced from one key of one
    store, and nothing replaces it between the read and this write). *)
Definition ref_set_state (s : StoreLoc) (k : string) (r : Ref) (st : ES)
  : Act unit :=
  emit (RefSetState s k st);;
  write (fun m =>
    set_heap (<[s := <[k := {| object := object r; state := Some st;
                               container := container r |}]> (heap m s)]>
              (heap m)) m).

(** [externalObjectRef.state] and [externalObjectRef.state = nextState]
    for what [store[k]] found.  The member [__proto__] is
    [Object.prototype]: it has no [state], and assigning one changes the
    prototype of every object. *)
Definition found_state (f : Found E ES) : Act (option ES) :=
  match f with
  | Entry r => ret (state r)
  | Member k =>
      read (fun m => if String.eqb k "__proto__" then None
                     else members m !! k)
  end.

Definition found_set_state (s : StoreLoc) (k : string) (f : Found E ES)
    (st : ES) : Act unit :=
  match f with
  | Entry r => ref_set_state s k r st
  | Member k' =>
      emit (MemberSetState k' st);;
      if String.eqb k' "__proto__" then leave
      else write (fun m => set_members (<[k' := st]> (members m)) m)
  end.

(** **** The class *)

Definition checkProps (props : Props PS) : Act unit :=
  if String.eqb (id props) ""
  then throw (Error "cannot construct ExternalObjectComponent without id")
  else ret tt.

(** The private getter
    [this.props.externalObjectStore || DEFAULT_EXTERNAL_OBJECT_CACHE]. *)
Definition selectStore (props : Props PS) : StoreLoc :=
  match externalObjectStore props with
  | Some ref => InjectedStore ref
  | None => DEFAULT_EXTERNAL_OBJECT_CACHE
  end.

Definition get_externalObjectStore : Act StoreLoc :=
  read (fun m => selectStore (this_props m)).

Definition constructor (props : Props PS) : Act unit :=
  write (set_props props);;
  checkProps props;;
  write (set_parentContainer None).

Definition updateExternalComponentAndSaveProps (nextProps : Props PS)
  : Act unit :=
  store <- get_externalObjectStore;;
  externalObjectRef <- store_get store (id nextProps);;
  externalObjectRef <- assert_ok externalObjectRef;;
  prevState <- found_state externalObjectRef;;
  let nextState := propsToExternalObjectState nextProps in
  props <- read this_props;;
  when (debug props)
    (emit (ConsoleLog
       "ExternalObjectComponent: updating existing external object with id ="
       (id props)));;
  parentContainer <- read this_parentContainer;;
  emit (CallUpdateExternalObject (found_object externalObjectRef)
          prevState nextState
          parentContainer (found_container externalObjectRef));;
  found_set_state store (id nextProps) externalObjectRef nextState.

Definition mountNewExternalObject (parentContainer : Node) : Act unit :=
  props <- read this_props;;
  emit (CallNewContainer (id props));;
  n <- read created;;
  write (set_created (S n));;
  let container := newContainer props (id props) n in
  match container with
  | Some c =>
      when (debug props)
        (emit (ConsoleLog
           "ExternalObjectComponent: attaching new external object with id ="
           (id props)));;
      appendChild parentContainer c
  | None => ret tt
  end;;
  emit (CallNewExternalObject parentContainer container);;
  let object := newExternalObject props parentContainer container in
  store <- get_externalObjectStore;;
  store_set store (id props)
    {| object := object; state := None; container := container |};;
  write (set_parentContainer (Some parentContainer));;
  emit (CallExternalObjectMounted (Some object) parentContainer container);;
  updateExternalComponentAndSaveProps props.

Definition mountExistingExternalObject (parentContainer : Node) : Act unit :=
  store <- get_externalObjectStore;;
  props <- read this_props;;
  externalObjectRef <- store_get store (id props);;
  externalObjectRef <- assert_ok externalObjectRef;;
  let container := found_container externalObjectRef in
  match container with
  | Some c =>
      inside <- contains parentContainer c;;
      if negb inside then
        when (debug props)
          (emit (ConsoleLog
             "ExternalObjectComponent: attaching existing external object with id ="
             (id props)));;
        appendChild parentContainer c
      else ret tt
  | None => ret tt
  end;;
  write (set_parentContainer (Some parentContainer));;
  emit (CallExternalObjectMounted (found_object externalObjectRef)
          parentContainer container);;
  updateExternalComponentAndSaveProps props.

Definition unmountExternalObject (parentContainer : Node) : Act unit :=
  store <- get_externalObjectStore;;
  parentId <- dom_id parentContainer;;
  externalObjectRef <- store_get store parentId;;
  externalObjectRef <- assert_ok externalObjectRef;;
  let container := found_container externalObjectRef in
  props <- read this_props;;
  match container with
  | Some c =>
      inside <- contains parentContainer c;;
      if inside : bool then
        when (debug props)
          (emit (ConsoleLog
             "ExternalObjectComponent: detaching external object with id ="
             (id props)));;
        removeChild parentContainer c
      else ret tt
  | None => ret tt
  end;;
  write (set_parentContainer None);;
  emit (CallExternalObjectUnmounted (found_object externalObjectRef)
          parentContainer container).

Definition remountExternalObject (parentContainer : option Node) : Act unit :=
  match parentContainer with
  | Some pc =>
      props <- read this_props;;
      store <- get_externalObjectStore;;
      present <- store_in store (id props);;
      if present : bool then mountExistingExternalObject pc
      else mountNewExternalObject pc
  | None =>
      mounted <- read this_parentContainer;;
      match mounted with
      | Some pc => unmountExternalObject pc
      | None => ret tt
      end
  end.

Definition componentWillUpdate (nextProps : Props PS) : Act unit :=
  checkProps nextProps;;
  store <- get_externalObjectStore;;
  present <- store_in store (id nextProps);;
  if present : bool then updateExternalComponentAndSaveProps nextProps
  else
    mounted <- read this_parentContainer;;
    match mounted with
    | Some pc => remountExternalObject (Some pc)
    | None => ret tt
    end.

Definition forceRegeneration : Act unit :=
  externalObjectStore <- get_externalObjectStore;;
  props <- read this_props;;
  externalObjectRef <- store_get externalObjectStore (id props);;
  match externalObjectRef with
  | Some ref =>
      store_delete externalObjectStore (id props);;
      mounted <- read this_parentContainer;;
      match mounted, found_container ref with
      | Some pc, Some c => removeChild pc c
      | _, _ => ret tt
      end;;
      mounted <- read this_parentContainer;;
      remountExternalObject mounted
  | None => ret tt
  end.

(** **** What React does with the component *)

(** The operations of the bridge as React and its clients trigger them:
    - [New props]: a component instance is created;
    - [Attach el]: the [ref] callback of [render] is called with the
      rendered [div] ([Some el]) or with [null];
    - [Receive nextProps]: new props arrive, React calls
      [componentWillUpdate(nextProps)] and then replaces [this.props];
    - [Regenerate]: a client calls [forceRegeneration()]. *)
Inductive Op : Type :=
| New (props : Props PS)
| Attach (el : option Node)
| Receive (nextProps : Props PS)
| Regenerate.

Definition run_op (op : Op) : Act unit :=
  match op with
  | New props => constructor props
  | Attach el => remountExternalObject el
  | Receive nextProps =>
      componentWillUpdate nextProps;;
      write (set_props nextProps)
  | Regenerate => forceRegeneration
  end.

Fixpoint run_ops (ops : list Op) : Act unit :=
  match ops with
  | [] => ret tt
  | op :: ops' => run_op op;; run_ops ops'
  end.

(** **** Reading a trace *)

(** The calls of [newExternalObject] in a trace. *)
Definition isConstruction (ev : Event E ES) : bool :=
  match ev with
  | CallNewExternalObject _ _ => true
  | _ => false
  end.

Definition constructions (l : list (Event E ES)) : nat :=
  length (List.filter isConstruction l).

(** The (previous state, next state) arguments of the calls of
    [updateExternalObject] in a trace, in order. *)
Fixpoint updates (l : list (Event E ES)) : list (option ES * ES) :=
  match l with
  | [] => []
  | CallUpdateExternalObject _ prevState nextState _ _ :: l' =>
      (prevState, nextState) :: updates l'
  | _ :: l' => updates l'
  end.


(** The state an entry holds after the update calls [us], when it held
    [last] before. *)
Fixpoint saved (last : option ES) (us : list (option ES * ES)) : option ES :=
  match us with
  | [] => last
  | (_, nextState) :: us' => saved (Some nextState) us'
  end.


(** **** Reading the stores *)


(** Every entry of [h] is still an entry of [h'], with the same external
    object and the same container. *)
Definition kept (h h' : StoreLoc → gmap string Ref) : Prop :=
  ∀ s k r, h s !! k = Some r →
    ∃ r', h' s !! k = Some r' ∧ object r' = object r
          ∧ container r' = container r.

(** The operation leaves the id and the store of the component as they
    are and is not a forced regeneration. *)
Definition keepsIdentity (i : string) (s : StoreLoc) (op : Op) : Prop :=
  match op with
  | New props | Receive props => id props = i ∧ selectStore props = s
  | Attach _ => True
  | Regenerate => False
  end.

(** **** Conditions on the document *)

(** The mount returns normally exactly when no [appendChild] it issues is
    refused: a container that has to be attached must not be the parent
    container or one of its ancestors. *)
Definition attachable (m : Machine E ES PS) (pc : Node) : Prop :=
  match heap m (selectStore (this_props m)) !! id (this_props m) with
  | Some r =>
      match container r with
      | Some c => dom_contains (parentNode m) pc c = true
                  ∨ dom_contains (parentNode m) c pc = false
      | None => True
      end
  | None =>
      match newContainer (this_props m) (id (this_props m)) (created m) with
      | Some c => dom_contains (parentNode m) c pc = false
      | None => True
      end
  end.

End Methods.

(** *** A concrete component *)

(** A component in the manner of the plot panel: the props carry a plot
    type, the state of the external object is that type, the external
    object itself is [null], and the container is a new [div] at each
    call, here the elements with handles 7, 8, ... *)
Inductive PlotType : Type := line | histogram | scatter | density.

#[export] Instance PlotPanel : Subclass unit PlotType PlotType := {
  newContainer _ _ n := Some (7 + n);
  newExternalObject _ _ _ := tt;
  propsToExternalObjectState props := own props;
}.

(** A plot panel with id [plot-1], in a document in which React has
    rendered its [div] (handle 1) and no store holds an entry. *)
Definition plotProps (store : option nat) (type : PlotType) : Props PlotType :=
  {| id := "plot-1"; externalObjectStore := store; debug := false;
     own := type |}.

Definition plotMachine (store : option nat) : Machine unit PlotType PlotType :=
  {| this_props := plotProps store line;
     this_parentContainer := None;
     heap := fun _ => ∅;
     parentNode := ∅;
     idAttr := {[ 1 := "plot-1" ]};
     members := ∅;
     created := 0 |}.

(** The same after the mount of the panel. *)
Definition plotMounted (store : option nat) : Machine unit PlotType PlotType :=
  final (run_op (Attach (Some 1)) (plotMachine store)).



(** Two plot panels in one document: the panel [plot-1] is mounted, then
    a panel [plot-2] is created and mounted into the [div] with
    handle 2. *)
Definition otherProps (type : PlotType) : Props PlotType :=
  {| id := "plot-2"; externalObjectStore := None; debug := false;
     own := type |}.

Definition twoPlots : Machine unit PlotType PlotType :=
  final (run_ops [New (otherProps scatter); Attach (Some 2)]
           (plotMounted None)).

End ExternalObjectComponent.

(* ===================================================================== *)
(** ** main.ts (the Electron main process) *)
(* ===================================================================== *)

Module Main.

(** [getOptionArg(options)] scans [args = process.argv.slice(1)] by index;
    [fuel] bounds the iterations of the loop by the number of
    arguments. *)
Fixpoint getOptionArg_loop (fuel : nat) (options args : list string) (i : nat)
  : option string :=
  match fuel with
  | O => None
  | S fuel' =>
      if (i <? length args)%nat then
        match args !! i with
        | Some arg =>
            if bool_decide (arg ∈ options) && (i <? length args - 1)%nat
            then args !! i
            else getOptionArg_loop fuel' options args (S i)
        | None => None
        end
      else None
  end.

Definition getOptionArg (argv options : list string) : option string :=
  let args := drop 1 argv in
  getOptionArg_loop (length args) options args 0.

(** The file system as [fs.statSync] and [fs.existsSync] see it. *)
Inductive FileKind : Type := Directory | RegularFile.

Inductive FsError : Type :=
| ENOENT     (* no such file or directory *)
| EEXIST.    (* file already exists *)

Section Environment.
(** What the functions get from the platform: the command line, the home
    directory ([app.getPath('home')]), [path.join] and [path.resolve],
    and the state of the file system. *)
Variable argv : list string.
Variable home : string.
Variable path_join : string → string → string.
Variable path_resolve : string → string.
Variable fs : string → option FileKind.

Definition getAppDataDir : string := path_join home ".cate".

(** [if (file)] for a string that may be [null]. *)
Definition given (file : option string) : bool :=
  match file with
  | Some s => negb (String.eqb s "")
  | None => false
  end.

Definition getConfigFile : option string :=
  let file := getOptionArg argv ["--config"; "-c"] in
  if given file then file
  else
    let file := path_resolve "cate-config.js" in
    if bool_decide (is_Some (fs file)) then Some file else None.

Definition getPrefsFile : string :=
  let file := getOptionArg argv ["--prefs"; "-p"] in
  if given file then default "" file
  else path_join getAppDataDir "cate-prefs.json".

(** [fs.statSync(path)] throws [ENOENT] for a path that does not exist. *)
Definition statSync (path : string) : FsError + FileKind :=
  match fs path with
  | Some kind => inr kind
  | None => inl ENOENT
  end.

(** [fs.mkdirSync(path)] throws [EEXIST] for a path that exists and
    creates the directory otherwise. *)
Definition mkdirSync (path : string) : FsError + (string → option FileKind) :=
  match fs path with
  | Some _ => inl EEXIST
  | None => inr (<[path := Some Directory]> fs)
  end.

(** [storePrefs()]: the file system it leaves and the file it hands to
    [_prefs.store], or the error thrown before. *)
Definition storePrefs : FsError + ((string → option FileKind) * string) :=
  match statSync getAppDataDir with
  | inl e => inl e
  | inr stats =>
      let made :=
        match stats with
        | Directory => inr fs
        | RegularFile => mkdirSync getAppDataDir
        end in
      match made with
      | inl e => inl e
      | inr fs' =>
          let prefsFile := getPrefsFile in
          inr (fs', prefsFile)
      end
  end.

End Environment.

End Main.

(* ===================================================================== *)
(** ** WorkspacePanel (the workspace tree) *)
(* ===================================================================== *)

Module WorkspacePanel.

(** The fields of an [ITreeNode] that the panel reads and writes, and the
    node with its optional child nodes. *)
Record Fields : Type := {
  label : string;
  isSelected : option bool;
  isExpanded : option bool;
}.

Inductive ITreeNode : Type :=
| TreeNode (fields : Fields) (childNodes : option (list ITreeNode)).

Definition setSelected (b : option bool) (f : Fields) : Fields :=
  {| label := label f; isSelected := b; isExpanded := isExpanded f |}.

Definition setExpanded (b : option bool) (f : Fields) : Fields :=
  {| label := label f; isSelected := isSelected f; isExpanded := b |}.

(** [forEachNode(nodes, callback)]: the callback is applied to every node
    of the forest, parents before children; a callback changes the fields
    of the node it is given. *)
Fixpoint forEachNode_at (callback : Fields → Fields) (node : ITreeNode)
  : ITreeNode :=
  match node with
  | TreeNode fields childNodes =>
      TreeNode (callback fields)
        match childNodes with
        | Some nodes => Some (List.map (forEachNode_at callback) nodes)
        | None => None
        end
  end.

Definition forEachNode (nodes : option (list ITreeNode))
    (callback : Fields → Fields) : option (list ITreeNode) :=
  match nodes with
  | None => None
  | Some nodes => Some (List.map (forEachNode_at callback) nodes)
  end.

(** The tree component hands a handler the node that was clicked together
    with its path, the child indices from the roots down to it.
    [fieldsAt nodes path] are the fields of that node and
    [alterAt f path nodes] is the forest after the handler assigned to the
    fields of that node. *)
Fixpoint fieldsAt (nodes : list ITreeNode) (path : list nat) : option Fields :=
  match path with
  | [] => None
  | i :: rest =>
      match nodes !! i with
      | Some (TreeNode fields childNodes) =>
          match rest with
          | [] => Some fields
          | _ :: _ => fieldsAt (default [] childNodes) rest
          end
      | None => None
      end
  end.

Fixpoint alterAt (f : Fields → Fields) (path : list nat) (nodes : list ITreeNode)
  : list ITreeNode :=
  match path with
  | [] => nodes
  | i :: rest =>
      alter (fun node =>
               match node with
               | TreeNode fields childNodes =>
                   match rest with
                   | [] => TreeNode (f fields) childNodes
                   | _ :: _ =>
                       TreeNode fields
                         match childNodes with
                         | Some children => Some (alterAt f rest children)
                         | None => None
                         end
                   end
               end) i nodes
  end.

(** The handlers, as functions from [this.state.nodes] to the nodes after
    the handler; [nodePath] locates [nodeData]. *)
Definition handleNodeClick (nodes : list ITreeNode) (nodePath : list nat)
    (shiftKey : bool) : list ITreeNode :=
  let originallySelected :=
    match fieldsAt nodes nodePath with
    | Some nodeData => isSelected nodeData
    | None => None
    end in
  let nodes :=
    if negb shiftKey
    then default [] (forEachNode (Some nodes) (setSelected (Some false)))
    else nodes in
  alterAt (setSelected (Some match originallySelected with
                             | None => true
                             | Some b => negb b
                             end)) nodePath nodes.

Definition handleNodeCollapse (nodes : list ITreeNode) (nodePath : list nat)
  : list ITreeNode :=
  alterAt (setExpanded (Some false)) nodePath nodes.

Definition handleNodeExpand (nodes : list ITreeNode) (nodePath : list nat)
  : list ITreeNode :=
  alterAt (setExpanded (Some true)) nodePath nodes.

(** A small forest to run the handlers on. *)
Definition exampleNodes : list ITreeNode :=
  [TreeNode {| label := "Resources"; isSelected := None;
               isExpanded := Some true |}
     (Some [TreeNode {| label := "Resource #1"; isSelected := Some true;
                        isExpanded := None |} None;
            TreeNode {| label := "Resource #2"; isSelected := None;
                        isExpanded := None |} None]);
   TreeNode {| label := "Workflow Steps"; isSelected := Some true;
               isExpanded := Some true |} (Some [])].

(** *** Opening the workspace when the panel is mounted *)

(** How a job promise ends. *)
Inductive Settled (W : Type) : Type :=
| Resolved (workspace : W)
| Rejected (error : string).
Global Arguments Resolved {W} workspace.
Global Arguments Rejected {W} error.

(** What the panel does: the calls of the workspace API, the actions it
    dispatches and what it logs. *)
Inductive Effect (W : Type) : Type :=
| CallNewWorkspace (baseDir : option string)
| CallOpenWorkspace (baseDir : string)
| DispatchSetCurrentWorkspace (workspace : W)
| ConsoleError (error : string).
Global Arguments CallNewWorkspace {W} baseDir.
Global Arguments CallOpenWorkspace {W} baseDir.
Global Arguments DispatchSetCurrentWorkspace {W} workspace.
Global Arguments ConsoleError {W} error.

Record Props (W : Type) : Type := {
  openLastWorkspace : option bool;
  lastWorkspacePath : option string;
  workspace : option W;
}.
Global Arguments openLastWorkspace {W} _.
Global Arguments lastWorkspacePath {W} _.
Global Arguments workspace {W} _.

Section Mount.
(** The outcome of the promises of [newWorkspace] and [openWorkspace] is
    taken as given; the effects are listed in the order in which they
    happen. *)
Context {W : Type}.
Variable newWorkspace : option string → Settled W.
Variable openWorkspace : string → Settled W.

Definition createInitialWorkspace : list (Effect W) :=
  CallNewWorkspace None ::
  match newWorkspace None with
  | Resolved workspace => [DispatchSetCurrentWorkspace workspace]
  | Rejected error => [ConsoleError error]
  end.

Definition openExistingWorkspace (workspacePath : string) : list (Effect W) :=
  CallOpenWorkspace workspacePath ::
  match openWorkspace workspacePath with
  | Resolved workspace => [DispatchSetCurrentWorkspace workspace]
  | Rejected error => ConsoleError error :: createInitialWorkspace
  end.

(** The last workspace is to be opened: [openLastWorkspace] is [true] and
    [lastWorkspacePath] is a non-empty string. *)
Definition lastWorkspace (props : Props W) : option string :=
  match openLastWorkspace props, lastWorkspacePath props with
  | Some true, Some path => if String.eqb path "" then None else Some path
  | _, _ => None
  end.

Definition componentDidMount (props : Props W) : list (Effect W) :=
  match workspace props with
  | None =>
      match lastWorkspace props with
      | Some path => openExistingWorkspace path
      | None => createInitialWorkspace
      end
  | Some _ => []
  end.

(** The workspaces dispatched and the calls issued in a list of
    effects. *)
Definition dispatched (effects : list (Effect W)) : list W :=
  omap (fun e => match e with
                 | DispatchSetCurrentWorkspace w => Some w
                 | _ => None
                 end) effects.

Definition calls (effects : list (Effect W)) : list (Effect W) :=
  List.filter (fun e => match e with
                        | CallNewWorkspace _ | CallOpenWorkspace _ => true
                        | _ => false
                        end) effects.

End Mount.

End WorkspacePanel.

(* ===================================================================== *)
(** ** OperationsPanel (the list of operations and its filters) *)
(* ===================================================================== *)

Module OperationsPanel.

(** JavaScript's [Set] of strings, as the list of its elements in
    insertion order, and a [Map] from strings to numbers, as the list of
    its entries in insertion order. *)
Definition JsSet : Type := list string.

Definition Set_has (x : string) (s : JsSet) : bool := bool_decide (x ∈ s).

Definition Set_add (x : string) (s : JsSet) : JsSet :=
  if Set_has x s then s else (s ++ [x])%list.

Definition Set_delete (x : string) (s : JsSet) : JsSet :=
  List.filter (fun y => negb (String.eqb y x)) s.

(** [new Set(iterable)]; [null] and [undefined] give the empty set. *)
Definition Set_new (iterable : option (list string)) : JsSet :=
  foldl (fun s x => Set_add x s) [] (default [] iterable).

Definition Array_from (s : JsSet) : list string := s.

Definition JsMap : Type := list (string * nat).

Fixpoint Map_get (k : string) (m : JsMap) : option nat :=
  match m with
  | [] => None
  | (k', v) :: m' => if String.eqb k' k then Some v else Map_get k m'
  end.

Fixpoint Map_set (k : string) (v : nat) (m : JsMap) : JsMap :=
  match m with
  | [] => [(k, v)]
  | (k', v') :: m' =>
      if String.eqb k' k then (k, v) :: m' else (k', v') :: Map_set k v m'
  end.

(** [s.includes(sub)]: [sub] occurs in [s]. *)
Fixpoint includes (s sub : string) : bool :=
  String.prefix sub s
  || match s with
     | EmptyString => false
     | String _ s' => includes s' sub
     end.

(** The fields of [OperationState] and of the props that the filters
    read. *)
Record OperationInput : Type := {
  input_name : string;
}.

Record OperationState : Type := {
  name : string;
  tags : option (list string);
  inputs : option (list OperationInput);
}.

Record Props : Type := {
  operations : option (list OperationState);
  selectedOperationName : option string;
  operationFilterTags : option (list string);
  operationFilterExpr : option string;
  newResourceName : string;
}.

(** The state of the dialog in which the inputs of an operation are
    assigned, and the arguments built from it. *)
Record InputAssignment : Type := {
  isValueUsed : bool;
  constantValue : Js.Value;
  resourceName : Js.Value;
}.

Record IEditOpStepDialogState : Type := {
  inputAssignments : list InputAssignment;
}.

Inductive OpArg : Type :=
| value (constantValue : Js.Value)
| source (resourceName : Js.Value).

(** The object [opArgs], built from [{}]: its own properties and, once
    [opArgs["__proto__"]] was assigned, the argument object that the
    assignment made its prototype. *)
Record OpArgs : Type := {
  ownArgs : gmap string OpArg;
  protoArg : option OpArg;
}.

(** [opArgs[name] = opArg]: the own property [name] is created or
    overwritten; for the name [__proto__] the assignment replaces the
    prototype of [opArgs] by the object [opArg] instead and creates no
    property. *)
Definition opArgs_set (name : string) (opArg : OpArg) (opArgs : OpArgs)
  : OpArgs :=
  if String.eqb name "__proto__"
  then {| ownArgs := ownArgs opArgs; protoArg := Some opArg |}
  else {| ownArgs := <[name := opArg]> (ownArgs opArgs);
          protoArg := protoArg opArgs |}.

Inductive Action : Type :=
| setOperationFilterTags (tags : list string)
| setDialogState (dialogId : string) (dialogState : IEditOpStepDialogState)
| setWorkspaceResource (resName opName : string) (opArgs : OpArgs)
    (title : string).

Inductive Exn : Type :=
| TypeError.      (* a property of [undefined] or [null] is read *)

(** Truthiness of a string that may be [null]. *)
Definition given (s : option string) : bool :=
  match s with
  | Some s => negb (String.eqb s "")
  | None => false
  end.

(** [getSelectedOperation()]: [null] without a selected name, otherwise
    what [find] returns, [undefined] when no operation has the name. *)
Definition getSelectedOperation (props : Props) : option OperationState :=
  if given (selectedOperationName props)
  then List.find
         (fun op => bool_decide (Some (name op) = selectedOperationName props))
         (default [] (operations props))
  else None.

(** The loop of [handleAddOpStepDialogClosed] over the inputs of the
    operation: the argument of the input at [index] comes from the
    assignment at [index]; a missing assignment is a [TypeError]. *)
Fixpoint opArgs_forEach (inputs : list OperationInput) (index : nat)
    (dialogState : IEditOpStepDialogState) (opArgs : OpArgs)
  : option OpArgs :=
  match inputs with
  | [] => Some opArgs
  | input :: inputs' =>
      match inputAssignments dialogState !! index with
      | Some inputAssignment =>
          let opArg :=
            if isValueUsed inputAssignment
            then value (constantValue inputAssignment)
            else source (resourceName inputAssignment) in
          opArgs_forEach inputs' (S index) dialogState
            (opArgs_set (input_name input) opArg opArgs)
      | None => None
      end
  end.

Definition quote : string := String (Ascii.ascii_of_nat 34) EmptyString.

Section Dialog.
(** [EditOpStepDialog.getDialogId] is taken as given. *)
Variable getDialogId : option string → bool → string.

(** [handleAddOpStepDialogClosed(actionId, dialogState)]: the actions
    dispatched, in order, and the exception that ends the handler, if
    any. *)
Definition handleAddOpStepDialogClosed (props : Props)
    (actionId : option string) (dialogState : IEditOpStepDialogState)
  : list Action * option Exn :=
  let selectedOperation := getSelectedOperation props in
  let dialogId := getDialogId (selectedOperationName props) true in
  let dispatched := [setDialogState dialogId dialogState] in
  if given actionId then
    let resName := newResourceName props in
    match selectedOperation with
    | Some selectedOperation =>
        let opName := name selectedOperation in
        match inputs selectedOperation with
        | Some inputs =>
            match opArgs_forEach inputs 0 dialogState
                    {| ownArgs := ∅; protoArg := None |} with
            | Some opArgs =>
                ((dispatched ++
                  [setWorkspaceResource resName opName opArgs
                     ("Applying operation " +:+ quote +:+ opName +:+ quote)])%list,
                 None)
            | None => (dispatched, Some TypeError)
            end
        | None => (dispatched, Some TypeError)
        end
    | None => (dispatched, Some TypeError)
    end
  else (dispatched, None).

End Dialog.

Definition addTagName (props : Props) (tagName : string) : Action :=
  let tags := Set_new (operationFilterTags props) in
  let tags := Set_add tagName tags in
  setOperationFilterTags (Array_from tags).

Definition removeTagName (props : Props) (tagName : string) : Action :=
  let tags := Set_new (operationFilterTags props) in
  let tags := Set_delete tagName tags in
  setOperationFilterTags (Array_from tags).

(** The filter of [render]. *)
Definition nameMatches (operationFilterExpr : option string)
    (op : OperationState) : bool :=
  negb (given operationFilterExpr)
  || includes (name op) (default "" operationFilterExpr).

Definition hasTag (operationFilterTags : list string) (op : OperationState)
  : bool :=
  (length operationFilterTags =? 0)%nat
  || forallb (fun tag => Set_has tag (Set_new (tags op))) operationFilterTags.

Definition filteredOperations (props : Props) : list OperationState :=
  let allOperations := default [] (operations props) in
  let operationFilterTags := default [] (operationFilterTags props) in
  let operationFilterExpr := operationFilterExpr props in
  if negb (given operationFilterExpr)
     && (length operationFilterTags =? 0)%nat
  then allOperations
  else List.filter (fun op => nameMatches operationFilterExpr op
                              && hasTag operationFilterTags op)
         allOperations.

(** [renderOperationTagFilterPanel]: the tags of the filter, each with
    its removal, and the menu of the tags that can be added, each with the
    number of its occurrences; the button that opens the menu is left out
    when the menu is empty. *)
Definition tagCounts (operations : list OperationState) : JsMap :=
  foldl (fun tagCounts op =>
           foldl (fun tagCounts tag =>
                    Map_set tag (default 0%nat (Map_get tag tagCounts) + 1)%nat
                      tagCounts)
             tagCounts (default [] (tags op)))
    [] operations.

Record MenuItem : Type := {
  key : string;
  text : string;
  onClick : Action;
}.

Record Tag : Type := {
  children : string;
  onRemove : Action;
}.

Record TagFilterPanel : Type := {
  addTagButton : option (list MenuItem);
  selectedTagItems : list Tag;
}.

Definition tagMenuItems (props : Props) (operations : list OperationState)
    (selectedOperationTags : JsSet) : list MenuItem :=
  omap (fun '(tagName, tagCount) =>
          if negb (Set_has tagName selectedOperationTags)
          then Some {| key := tagName;
                       text := tagName +:+ " (" +:+ pretty tagCount +:+ ")";
                       onClick := addTagName props tagName |}
          else None)
    (tagCounts operations).

Definition renderOperationTagFilterPanel (props : Props)
    (operations : list OperationState) (selectedOperationTags : JsSet)
  : TagFilterPanel :=
  let selectedTagItems :=
    List.map (fun tagName => {| children := tagName;
                                onRemove := removeTagName props tagName |})
      selectedOperationTags in
  let tagMenuItems := tagMenuItems props operations selectedOperationTags in
  {| addTagButton :=
       if (length tagMenuItems =? 0)%nat then None else Some tagMenuItems;
     selectedTagItems := selectedTagItems |}.

(** The props that differ from [props] in the filter tags only. *)
Definition withFilterTags (props : Props) (tags : list string) : Props :=
  {| operations := operations props;
     selectedOperationName := selectedOperationName props;
     operationFilterTags := Some tags;
     operationFilterExpr := operationFilterExpr props;
     newResourceName := newResourceName props |}.

(** How often a tag occurs in the tag lists of the operations. *)
Fixpoint count (tag : string) (l : list string) : nat :=
  match l with
  | [] => 0%nat
  | x :: l' => ((if String.eqb x tag then 1 else 0) + count tag l')%nat
  end.

Fixpoint occurrences (tag : string) (operations : list OperationState) : nat :=
  match operations with
  | [] => 0%nat
  | op :: operations' =>
      (count tag (default [] (tags op)) + occurrences tag operations')%nat
  end.

(** Props to run the filters on. *)
Definition exampleProps : Props :=
  {| operations :=
       Some [ {| name := "read_netcdf"; tags := Some ["input"; "netcdf"];
                 inputs := Some [ {| input_name := "file" |};
                                  {| input_name := "drop_variables" |} ] |};
              {| name := "plot_map"; tags := Some ["plot"]; inputs := None |};
              {| name := "open_dataset"; tags := Some ["input"];
                 inputs := Some [ {| input_name := "ds_name" |} ] |};
              {| name := "tseries_mean"; tags := None; inputs := Some [] |} ];
     selectedOperationName := Some "read_netcdf";
     operationFilterTags := Some ["input"];
     operationFilterExpr := Some "e";
     newResourceName := "res_1" |}.

Definition exampleDialogId (operationName : option string) (isAdd : bool)
  : string :=
  (if isAdd then "addOpStep_" else "editOpStep_") +:+ default "" operationName.

Definition exampleDialogState : IEditOpStepDialogState :=
  {| inputAssignments :=
       [ {| isValueUsed := true; constantValue := Js.Str "sst.nc";
            resourceName := Js.Null |};
         {| isValueUsed := false; constantValue := Js.Undefined;
            resourceName := Js.Str "res_0" |} ] |}.

End OperationsPanel.

(* ===================================================================== *)
(** ** VariablesPanel (the variables of the selected resource) *)
(* ===================================================================== *)

Module VariablesPanel.

(** The fields of [VariableState] and of the props that the action row
    reads; [R] and [L] are the types of resources and of image layouts,
    of which the panel reads nothing. *)
Record VariableState (L : Type) : Type := {
  name : string;
  ndim : option Q;
  imageLayout : option L;
}.
Global Arguments name {L} _.
Global Arguments ndim {L} _.
Global Arguments imageLayout {L} _.

Record Props (R L : Type) : Type := {
  selectedResource : option R;
  selectedVariable : option (VariableState L);
  showSelectedVariableLayer : bool;
}.
Global Arguments selectedResource {R L} _.
Global Arguments selectedVariable {R L} _.
Global Arguments showSelectedVariableLayer {R L} _.

Inductive Action (R L : Type) : Type :=
| setSelectedVariableName (name : option string)
| setShowSelectedVariableLayer (show : bool)
| addVariableLayer (layerId : option string) (resource : R)
    (variable : VariableState L).
Global Arguments setSelectedVariableName {R L} name.
Global Arguments setShowSelectedVariableLayer {R L} show.
Global Arguments addVariableLayer {R L} layerId resource variable.

Inductive Exn : Type :=
| AssertionError.     (* thrown by [assert.ok] *)

Section Panel.
Context {R L : Type}.

Definition assert_ok {A} (value : option A) : Exn + A :=
  match value with
  | Some v => inr v
  | None => inl AssertionError
  end.

Definition handleSelectedVariableName (newSelection : option (list string))
  : Action R L :=
  match newSelection with
  | Some (first :: _) => setSelectedVariableName (Some first)
  | _ => setSelectedVariableName None
  end.

Definition handleShowSelectedVariableLayer (props : Props R L) : Action R L :=
  setShowSelectedVariableLayer (negb (showSelectedVariableLayer props)).

(** [handleAddVariableLayer()]: the action dispatched, or the exception
    of a failed assertion. *)
Definition handleAddVariableLayer (props : Props R L) : Exn + Action R L :=
  let resource := selectedResource props in
  let variable := selectedVariable props in
  match assert_ok resource with
  | inl e => inl e
  | inr resource =>
      match assert_ok (v ← variable; _ ← imageLayout v; Some v) with
      | inl e => inl e
      | inr variable => inr (addVariableLayer None resource variable)
      end
  end.

(** [renderVariableActionRow()]: whether the button that adds a layer is
    disabled. *)
Definition isSpatialVariable (props : Props R L) : bool :=
  match selectedVariable props with
  | Some selectedVariable =>
      match ndim selectedVariable with
      | Some n => Qle_bool 2 n
      | None => false
      end
      && bool_decide (is_Some (imageLayout selectedVariable))
  | None => false
  end.

Definition addLayerButtonDisabled (props : Props R L) : bool :=
  negb (isSpatialVariable props).

End Panel.

End VariablesPanel.

(* ===================================================================== *)
(** * Properties *)
(* ===================================================================== *)

(** ** Response translation *)

Section TranslatorProperties.
Import Js WebAPIClient WorkspaceAPI BackendConfigAPI.

Lemma get_present (fields : gmap string Value) k :
  k ∈ dom fields → fields !! k = Some (get (Object fields) k).
Proof.
  intros [v Hv]%elem_of_dom. simpl. by rewrite Hv.
Qed.




(** C8: the two translations of the backend configuration invert each
    other on objects that carry exactly their two fields. *)
Theorem config_round_trip (c r : gmap string Value) :
  dom c = {[ "dataStoresPath"; "useWorkspaceImageryCache" ]} →
  dom r = {[ "data_stores_path"; "use_workspace_imagery_cache" ]} →
  fromPythonConfig (toPythonConfig (Object c)) = Object c
  ∧ toPythonConfig (fromPythonConfig (Object r)) = Object r.
Proof.
  intros Hc Hr. unfold fromPythonConfig, toPythonConfig.
  cbn [truthy negb]. split; apply (f_equal Object), map_eq; intros k.
  - cbn [get].
    destruct (decide (k = "dataStoresPath")) as [->|].
    { rewrite lookup_insert_eq. symmetry. apply get_present.
      rewrite Hc. set_solver. }
    rewrite lookup_insert_ne by done.
    destruct (decide (k = "useWorkspaceImageryCache")) as [->|].
    { rewrite lookup_insert_eq. symmetry. apply get_present.
      rewrite Hc. set_solver. }
    rewrite lookup_insert_ne, lookup_empty by done.
    symmetry. apply not_elem_of_dom. rewrite Hc. set_unfold. tauto.
  - cbn [get].
    destruct (decide (k = "data_stores_path")) as [->|].
    { rewrite lookup_insert_eq. symmetry. apply get_present.
      rewrite Hr. set_solver. }
    rewrite lookup_insert_ne by done.
    destruct (decide (k = "use_workspace_imagery_cache")) as [->|].
    { rewrite lookup_insert_eq. symmetry. apply get_present.
      rewrite Hr. set_solver. }
    rewrite lookup_insert_ne, lookup_empty by done.
    symmetry. apply not_elem_of_dom. rewrite Hr. set_unfold. tauto.
Qed.

Lemma config_round_trip_witness :
  let c : gmap string Value :=
    {[ "dataStoresPath" := Str "~/.cate/data_stores";
       "useWorkspaceImageryCache" := Bool false ]} in
  let r : gmap string Value :=
    {[ "data_stores_path" := Null;
       "use_workspace_imagery_cache" := Bool true ]} in
  fromPythonConfig (toPythonConfig (Object c)) = Object c
  ∧ toPythonConfig (fromPythonConfig (Object r)) = Object r.
Proof.
  intros c r. apply (config_round_trip c r); unfold c, r.
  - rewrite dom_insert_L, dom_singleton_L. reflexivity.
  - rewrite dom_insert_L, dom_singleton_L. reflexivity.
Defined.

(** C9: when the backend delivers a missing payload ([null] or
    [undefined]), both response translators return [null], and the job
    promise of every call that translates its response (the calls of
    [WorkspaceAPI] that yield a workspace, and [getBackendConfig]) resolves
    with [null]: it is not rejected and does not resolve with an
    object. *)
Theorem missing_response_is_null (payload : Value) :
  payload = Null ∨ payload = Undefined →
  let delivered := Some (Success payload) in
  responseToWorkspace payload = Null
  ∧ fromPythonConfig payload = Null
  ∧ (∀ baseDir, newWorkspace baseDir delivered = Resolved Null)
  ∧ (∀ baseDir, openWorkspace baseDir delivered = Resolved Null)
  ∧ (∀ baseDir, saveWorkspace baseDir delivered = Resolved Null)
  ∧ (∀ baseDir toDir, saveWorkspaceAs baseDir toDir delivered = Resolved Null)
  ∧ (∀ baseDir, cleanWorkspace baseDir delivered = Resolved Null)
  ∧ (∀ baseDir resName opName opArgs,
       setWorkspaceResource baseDir resName opName opArgs delivered
       = Resolved Null)
  ∧ (∀ baseDir resName newResName,
       renameWorkspaceResource baseDir resName newResName delivered
       = Resolved Null)
  ∧ (∀ baseDir resName,
       deleteWorkspaceResource baseDir resName delivered = Resolved Null)
  ∧ getBackendConfig delivered = Resolved Null.
Proof.
  intros Hmissing. cbn zeta.
  assert (responseToWorkspace payload = Null) as Hworkspace
    by (by destruct Hmissing as [-> | ->]).
  assert (fromPythonConfig payload = Null) as Hconfig
    by (by destruct Hmissing as [-> | ->]).
  unfold newWorkspace, openWorkspace, saveWorkspace, saveWorkspaceAs,
    cleanWorkspace, setWorkspaceResource, renameWorkspaceResource,
    deleteWorkspaceResource, getBackendConfig, call.
  rewrite Hworkspace, Hconfig. by split_and!.
Qed.

Lemma missing_response_is_null_witness :
  responseToWorkspace Undefined = Null
  ∧ fromPythonConfig Undefined = Null
  ∧ openWorkspace (Str "/x") (Some (Success Undefined)) = Resolved Null
  ∧ getBackendConfig (Some (Success Undefined)) = Resolved Null.
Proof.
  destruct (missing_response_is_null Undefined (or_intror eq_refl))
    as (Hw & Hc & _ & Hopen & _ & _ & _ & _ & _ & _ & Hget).
  split_and!; [exact Hw | exact Hc | apply Hopen | exact Hget].
Defined.


(** X10: Translating a backend configuration to the client and back
    normalises it: for every truthy response the result carries exactly
    the two wire keys, each with the value the response had for it
    ([undefined] when missing), every other field is gone, and doing the
    same again changes nothing. *)
Theorem config_translation_normalises (r : Value) :
  truthy r = true →
  let r' := toPythonConfig (fromPythonConfig r) in
  keys r' = {[ "data_stores_path"; "use_workspace_imagery_cache" ]}
  ∧ get r' "data_stores_path" = get r "data_stores_path"
  ∧ get r' "use_workspace_imagery_cache" = get r "use_workspace_imagery_cache"
  ∧ toPythonConfig (fromPythonConfig r') = r'.
Proof.
  intros Hr. unfold fromPythonConfig, toPythonConfig. rewrite Hr.
  cbn [negb truthy keys get]. split_and!.
  - rewrite !dom_insert_L, dom_empty_L. set_solver.
  - by simplify_map_eq.
  - by simplify_map_eq.
  - by simplify_map_eq.
Qed.

Lemma config_translation_normalises_witness :
  let r := Object {[ "data_stores_path" := Str "~/.cate/data_stores";
                     "user" := Str "forman" ]} in
  truthy r = true
  ∧ let r' := toPythonConfig (fromPythonConfig r) in
    keys r' = {[ "data_stores_path"; "use_workspace_imagery_cache" ]}
    ∧ get r' "data_stores_path" = get r "data_stores_path"
    ∧ get r' "use_workspace_imagery_cache" = get r "use_workspace_imagery_cache"
    ∧ toPythonConfig (fromPythonConfig r') = r'.
Proof.
  intros r. split; [reflexivity|].
  apply (config_translation_normalises r). reflexivity.
Defined.

(** X11: A missing client configuration is sent as the empty object, never as
    [null]; translated back it is a configuration object whose two fields
    hold [undefined], so a falsy configuration does not survive the round
    trip. *)
Theorem missing_config_is_sent_as_empty_object (c : Value) :
  truthy c = false →
  toPythonConfig c = Object ∅
  ∧ fromPythonConfig (toPythonConfig c) =
      Object {[ "dataStoresPath" := Undefined;
                "useWorkspaceImageryCache" := Undefined ]}
  ∧ fromPythonConfig (toPythonConfig c) ≠ c.
Proof.
  intros Hc. unfold toPythonConfig, fromPythonConfig. rewrite Hc.
  cbn [negb truthy get]. rewrite lookup_empty. cbn [default].
  split_and!; [done..|]. intros <-. done.
Qed.

Lemma missing_config_is_sent_as_empty_object_witness :
  truthy Null = false
  ∧ toPythonConfig Null = Object ∅
  ∧ fromPythonConfig (toPythonConfig Null) =
      Object {[ "dataStoresPath" := Undefined;
                "useWorkspaceImageryCache" := Undefined ]}
  ∧ fromPythonConfig (toPythonConfig Null) ≠ Null.
Proof.
  split; [reflexivity|].
  apply (missing_config_is_sent_as_empty_object Null). reflexivity.
Defined.

End TranslatorProperties.

(** ** The task list entry *)

Section TaskListProperties.
Import TaskComponent.

Lemma isMakingProgress_determinate (t : TaskState) :
  isMakingProgress t = true ↔ determinate t.
Proof.
  unfold isMakingProgress, determinate. split.
  - intros [Hst Hp]%andb_prop. apply bool_decide_eq_true in Hst.
    split; [done|]. destruct (progress t) as [p|]; [|done].
    apply andb_prop in Hp as [Hw Ht]. exists p.
    apply negb_true_iff in Hw, Ht. split_and!; [done| |].
    + intros Hz%Qeq_bool_iff. congruence.
    + apply Qnot_le_lt. intros Hle%Qle_bool_iff. congruence.
  - intros [Hst (p & -> & Hw & Ht)].
    rewrite bool_decide_eq_true_2 by done. cbn.
    apply andb_true_intro. split; apply negb_true_iff.
    + destruct (Qeq_bool (worked p) 0) eqn:Hz; [|done].
      by apply Qeq_bool_iff in Hz.
    + destruct (Qle_bool (total p) 0) eqn:Hle; [|done].
      apply Qle_bool_iff in Hle. by apply Qlt_not_le in Ht.
Qed.

Lemma determinate_running (t : TaskState) : determinate t → isRunning t = true.
Proof.
  intros [Hst _]. unfold isRunning. rewrite Hst. reflexivity.
Qed.

(** The progress bars and the handlers of the rendered entry, by case. *)
Lemma render_activity (t : TaskState) (jobId : Z) :
  if isRunning t then
    if isMakingProgress t then
      ∃ p, progress t = Some p
           ∧ progressBars (render t jobId) =
               [Some (worked p / total p)%Q]
           ∧ onCancelJob jobId ∈ handlers (render t jobId)
    else progressBars (render t jobId) = [None]
         ∧ ∀ j, onCancelJob j ∉ handlers (render t jobId)
  else progressBars (render t jobId) = []
       ∧ ∀ j, onCancelJob j ∉ handlers (render t jobId).
Proof.
  unfold render.
  destruct (isRunning t) eqn:Hrun;
    [destruct (isMakingProgress t) eqn:Hprog|].
  - apply isMakingProgress_determinate in Hprog as [_ (p & Hp & _)].
    exists p. rewrite Hp. split; [done|].
    destruct (nonEmpty (message p)), (failure t) as [[fm]|];
      cbn; try destruct (nonEmpty fm); cbn; set_solver.
  - destruct (failure t) as [[fm]|]; cbn; try destruct (nonEmpty fm); cbn;
      (split; [done|]); intros j; set_solver.
  - destruct (failure t) as [[fm]|]; cbn; try destruct (nonEmpty fm); cbn;
      (split; [done|]); intros j; set_solver.
Qed.

(** C6: for a running task the entry shows a progress bar with value
    worked/total exactly when the task is IN_PROGRESS with a progress
    record whose worked counter is nonzero and whose total is positive;
    in every other running case, in particular when the total of the
    progress record is not positive, it shows a bar without a value. *)
Theorem running_task_progress_bar (t : TaskState) (jobId : Z) :
  isRunning t = true →
  ((∃ v, progressBars (render t jobId) = [Some v]) ↔ determinate t)
  ∧ (∀ p, determinate t → progress t = Some p →
       progressBars (render t jobId) =
         [Some (worked p / total p)%Q])
  ∧ (¬ determinate t → progressBars (render t jobId) = [None])
  ∧ (∀ p, progress t = Some p → (total p <= 0)%Q →
       progressBars (render t jobId) = [None]).
Proof.
  intros Hrun. pose proof (render_activity t jobId) as Hact.
  pose proof (isMakingProgress_determinate t) as Hdet.
  rewrite Hrun in Hact. destruct (isMakingProgress t).
  - destruct Hact as (p & Hp & Hbars & _).
    assert (determinate t) as Hd by by apply Hdet.
    split_and!.
    + split; [done|]. intros _. eexists. exact Hbars.
    + intros p' _ Hp'. rewrite Hp in Hp'. by injection Hp' as <-.
    + done.
    + intros p' Hp' Htot. rewrite Hp in Hp'. injection Hp' as <-.
      destruct Hd as [_ (q & Hq & _ & Hpos)].
      rewrite Hp in Hq. injection Hq as <-. by apply Qlt_not_le in Hpos.
  - destruct Hact as [Hbars _].
    assert (¬ determinate t) as Hd by (intros Hd%Hdet; done).
    split_and!.
    + split; [|done]. intros [v Hv]. rewrite Hbars in Hv. done.
    + done.
    + done.
    + done.
Qed.

Lemma running_task_progress_bar_witness :
  let t := {| title := None; status := IN_PROGRESS;
              progress := Some {| worked := 5; total := 10; message := None |};
              failure := None |} in
  progressBars (render t 7) = [Some (5 / 10)%Q].
Proof.
  intros t.
  refine (proj1 (proj2 (running_task_progress_bar t 7 _))
            {| worked := 5; total := 10; message := None |} _ _).
  - reflexivity.
  - split; [reflexivity|]. eexists. split; [reflexivity|]. split.
    + discriminate.
    + reflexivity.
  - reflexivity.
Defined.

(** C10: the entry offers the cancel button of its job exactly when the
    task is IN_PROGRESS with a progress record whose worked counter is
    nonzero and whose total is positive; without such a record no cancel
    button is rendered at all, whatever the status. *)
Theorem cancel_offered_iff_determinate (t : TaskState) (jobId : Z) :
  (onCancelJob jobId ∈ handlers (render t jobId) ↔ determinate t)
  ∧ (¬ determinate t → ∀ j, onCancelJob j ∉ handlers (render t jobId)).
Proof.
  pose proof (render_activity t jobId) as Hact.
  pose proof (isMakingProgress_determinate t) as Hdet.
  pose proof (determinate_running t) as Hrun.
  destruct (isRunning t); [destruct (isMakingProgress t)|].
  - destruct Hact as (p & _ & _ & Hin). split; [|tauto].
    split; [intros _; by apply Hdet | done].
  - destruct Hact as [_ Hno].
    assert (¬ determinate t) as Hd by (intros Hd%Hdet; done).
    split; [|done]. split; [by intros ?%Hno | done].
  - destruct Hact as [_ Hno].
    assert (¬ determinate t) as Hd by (intros Hd%Hrun; done).
    split; [|done]. split; [by intros ?%Hno | done].
Qed.

(** X12: The entry offers the removal of its job exactly when the task has a
    failure record with a non-empty message, whatever the status; the
    message is then among the rendered texts; and the only handlers an
    entry ever carries are the cancel and remove handlers of its own
    job. *)
Theorem remove_offered_iff_failure_message (t : TaskState) (jobId : Z) :
  (onRemoveJob jobId ∈ handlers (render t jobId) ↔ is_Some (failureMessage t))
  ∧ (∀ msg, failureMessage t = Some msg → msg ∈ texts (render t jobId))
  ∧ (∀ h, h ∈ handlers (render t jobId) →
       h = onCancelJob jobId ∨ h = onRemoveJob jobId).
Proof.
  unfold render, failureMessage.
  destruct (failure t) as [[fm]|]; cbn [failure_message];
    [destruct (nonEmpty fm) as [msg|]|];
    (destruct (isRunning t);
      [destruct (isMakingProgress t);
        [destruct (progress t) as [p|];
          [destruct (nonEmpty (message p))|]|]|]);
    cbn; (split_and!; [split | |]);
    try (intros ? [= <-]); try (intros [? [=]]);
    rewrite ?elem_of_cons; try set_solver; eauto.
Qed.

(** X13: A task that is not running (succeeded, failed or cancelled) shows no
    progress bar and no cancel button, also when it still carries a
    progress record. *)
Theorem finished_task_shows_no_activity (t : TaskState) (jobId : Z) :
  status t = SUCCEEDED ∨ status t = FAILED ∨ status t = CANCELLED →
  progressBars (render t jobId) = []
  ∧ ∀ j, onCancelJob j ∉ handlers (render t jobId).
Proof.
  intros Hst. pose proof (render_activity t jobId) as Hact.
  assert (isRunning t = false) as Hrun.
  { unfold isRunning. destruct Hst as [-> | [-> | ->]]; reflexivity. }
  by rewrite Hrun in Hact.
Qed.

Lemma finished_task_shows_no_activity_witness :
  let t := {| title := Some "open dataset"; status := CANCELLED;
              progress := Some {| worked := 3; total := 10;
                                  message := Some "reading" |};
              failure := None |} in
  (status t = SUCCEEDED ∨ status t = FAILED ∨ status t = CANCELLED)
  ∧ progressBars (render t 7) = []
  ∧ ∀ j, onCancelJob j ∉ handlers (render t 7).
Proof.
  intros t. split; [right; right; reflexivity|].
  apply (finished_task_shows_no_activity t 7). right; right; reflexivity.
Defined.

End TaskListProperties.

(** ** The lifecycle bridge *)

Section BridgeProperties.
Import ExternalObjectComponent.
Context {E ES PS : Type} `{!Subclass E ES PS}.

Local Open Scope list_scope.

Local Abbreviation Ref := (ExternalObjectRef E ES).
Local Abbreviation Heap := (StoreLoc → gmap string (ExternalObjectRef E ES)).

(** *** Running the methods symbolically *)

Ltac unfold_bridge :=
  unfold run_op, constructor, componentWillUpdate, forceRegeneration,
    remountExternalObject, mountNewExternalObject,
    mountExistingExternalObject, unmountExternalObject,
    updateExternalComponentAndSaveProps, checkProps,
    store_in, store_get, store_set, store_delete, ref_set_state,
    found_state, found_set_state,
    get_externalObjectStore, appendChild, removeChild, contains, dom_id,
    assert_ok, when, bind, read, write, emit, ret, throw, leave in *.

Ltac innermost x :=
  lazymatch x with
  | context [match ?y with _ => _ end] => innermost y
  | _ => x
  end.

Ltac settle y :=
  first
    [ match goal with H : y = _ |- _ => rewrite H end
    | lazymatch y with
      | context [(<[?a:=_]> _) ?a] => rewrite fn_lookup_insert
      | <[?k:=_]> _ !! ?k => rewrite lookup_insert_eq
      | delete ?k _ !! ?k => rewrite lookup_delete_eq
      end
    | destruct y eqn:? ].

Ltac branch :=
  match goal with
  | |- context [match ?x with _ => _ end] =>
      let y := innermost x in settle y
  end.

Ltac reduce := cbn -[bool_decide decide lookup insert delete dom_contains].

Ltac run := unfold_bridge; repeat first [ progress reduce | branch ].

Ltac finish :=
  rewrite ?fn_lookup_insert, ?lookup_insert_eq, ?lookup_delete_eq; done.

(** *** Store accesses go to the selected store *)

Lemma accesses_selected (m : Machine E ES PS) (op : Op) :
  Forall (fun s => s = selectStore (this_props m))
         (accesses (log (run_op op m))).
Proof.
  destruct op as [props|[el|]|nextProps|]; run; repeat constructor.
Qed.

Lemma other_stores_untouched (m : Machine E ES PS) (op : Op) s :
  s ≠ selectStore (this_props m) →
  heap (final (run_op op m)) s = heap m s.
Proof.
  intros Hs.
  destruct op as [props|[el|]|nextProps|]; run;
    rewrite ?fn_lookup_insert_ne by done; reflexivity.
Qed.

(** C7 (amended): every store access of every operation goes to the store
    selected by the getter [externalObjectStore], which is the store
    injected through the props when there is one and the static default
    cache of the class otherwise; no other store is read or written. *)
Theorem store_accesses_selected (m : Machine E ES PS) (op : Op) :
  let o := run_op op m in
  Forall (fun s => s = selectStore (this_props m)) (accesses (log o))
  ∧ (∀ s, s ≠ selectStore (this_props m) → heap (final o) s = heap m s)
  ∧ (∀ ref, externalObjectStore (this_props m) = Some ref →
       selectStore (this_props m) = InjectedStore ref)
  ∧ (externalObjectStore (this_props m) = None →
       selectStore (this_props m) = DEFAULT_EXTERNAL_OBJECT_CACHE).
Proof.
  cbn zeta. split_and!.
  - apply accesses_selected.
  - intros s Hs. by apply other_stores_untouched.
  - intros ref Href. unfold selectStore. by rewrite Href.
  - intros Hnone. unfold selectStore. by rewrite Hnone.
Qed.

(** *** Entries stay in the store *)

Lemma kept_refl (h : Heap) : kept h h.
Proof. intros s k r Hr. by exists r. Qed.

Lemma kept_trans (h1 h2 h3 : Heap) :
  kept h1 h2 → kept h2 h3 → kept h1 h3.
Proof.
  intros H12 H23 s k r Hr.
  destruct (H12 s k r Hr) as (r2 & Hr2 & Ho2 & Hc2).
  destruct (H23 s k r2 Hr2) as (r3 & Hr3 & Ho3 & Hc3).
  exists r3. split; [done|]. split; congruence.
Qed.

(** Writing an entry keeps all entries when the key was free or held an
    entry with the same object and container. *)
Lemma kept_insert (h : Heap) s k r :
  match h s !! k with
  | Some r0 => object r = object r0 ∧ container r = container r0
  | None => True
  end →
  kept h (<[s := <[k := r]> (h s)]> h).
Proof.
  intros Hold s' k' r' Hr'.
  destruct (decide (s' = s)) as [->|Hs].
  - rewrite fn_lookup_insert.
    destruct (decide (k' = k)) as [->|Hk].
    + rewrite lookup_insert_eq. rewrite Hr' in Hold. by exists r.
    + rewrite lookup_insert_ne by done. by exists r'.
  - rewrite fn_lookup_insert_ne by done. by exists r'.
Qed.

Ltac keep :=
  lazymatch goal with
  | |- kept ?h ?h => apply kept_refl
  | |- kept ?h (<[_ := <[_ := _]> (?h' _)]> ?h') =>
      apply (kept_trans h h');
      [ keep
      | apply kept_insert;
        repeat first
          [ rewrite fn_lookup_insert
          | rewrite lookup_insert_eq
          | match goal with H : ?x = _ |- context [?x] => rewrite H end ];
        done ]
  end.

Lemma run_op_kept (m : Machine E ES PS) (op : Op) :
  op ≠ Regenerate → kept (heap m) (heap (final (run_op op m))).
Proof.
  intros Hop.
  destruct op as [props|[el|]|nextProps|]; [| | | |done]; run; keep.
Qed.

(** C4: every operation of the bridge other than the explicit removal
    ([forceRegeneration]) keeps every entry of every store: the
    identifier stays registered, with the same external object and the
    same container; this also holds along any sequence of such
    operations. *)
Theorem entries_outlive_operations (m : Machine E ES PS) (ops : list Op) :
  Forall (fun op => op ≠ Regenerate) ops →
  kept (heap m) (heap (final (run_ops ops m))).
Proof.
  intros Hops. revert m.
  induction Hops as [|op ops Hop _ IH]; intros m.
  - apply kept_refl.
  - cbn [run_ops]. unfold bind.
    pose proof (run_op_kept m op Hop) as Hfirst.
    destruct (run_op op m) as [[[]|e|] m1 l1]; cbn [final] in *.
    + specialize (IH m1).
      destruct (run_ops ops m1) as [r m2 l2]; cbn [final] in *.
      by apply kept_trans with (heap m1).
    + done.
    + done.
Qed.

(** X4: The explicit removal: a forced regeneration on an unmounted component
    deletes the entry of the component and creates no new one. *)
Lemma regeneration_removes_entry (m : Machine E ES PS) (r : Ref) :
  this_parentContainer m = None →
  heap m (selectStore (this_props m)) !! id (this_props m) = Some r →
  result (forceRegeneration m) = Returned tt
  ∧ heap (final (forceRegeneration m)) (selectStore (this_props m))
      !! id (this_props m) = None.
Proof.
  intros Hpc Hr. run; finish.
Qed.

(** *** Missing entries *)


(** *** The previous state handed to the update routine *)


Lemma constructions_app (l1 l2 : list (Event E ES)) :
  constructions (l1 ++ l2) = constructions l1 + constructions l2.
Proof.
  unfold constructions. by rewrite List.filter_app, length_app.
Qed.


Lemma saved_app (last : option ES) us1 us2 :
  saved last (us1 ++ us2) = saved (saved last us1) us2.
Proof.
  revert last. induction us1 as [|[prev next] us1 IH]; intros last; cbn.
  - done.
  - apply IH.
Qed.

(** An operation that keeps id and store leaves them in the props. *)
Lemma identity_step (m : Machine E ES PS) (op : Op) :
  keepsIdentity (id (this_props m)) (selectStore (this_props m)) op →
  id (this_props (final (run_op op m))) = id (this_props m)
  ∧ selectStore (this_props (final (run_op op m))) = selectStore (this_props m).
Proof.
  intros Hkeep.
  destruct op as [props|[el|]|nextProps|]; cbn in Hkeep.
  - destruct Hkeep as [Hid Hsel]. run; done.
  - run; done.
  - run; done.
  - destruct Hkeep as [Hid Hsel]. run; done.
  - done.
Qed.





(** *** Mount, update, unmount, remount *)

(** A component whose entry exists never constructs: no operation that
    keeps id and store calls [newExternalObject], and the entry is still
    there afterwards. *)
Lemma no_reconstruction (m : Machine E ES PS) (op : Op) :
  keepsIdentity (id (this_props m)) (selectStore (this_props m)) op →
  is_Some (heap m (selectStore (this_props m)) !! id (this_props m)) →
  constructions (log (run_op op m)) = 0
  ∧ is_Some (heap (final (run_op op m)) (selectStore (this_props m))
               !! id (this_props m)).
Proof.
  intros Hkeep [r Hr].
  assert (Hop : op ≠ Regenerate) by (by destruct op).
  destruct (run_op_kept m op Hop _ _ _ Hr) as (r' & Hr' & _).
  split; [|by exists r'].
  destruct op as [props|[el|]|nextProps|]; cbn in Hkeep.
  - run; done.
  - run; done.
  - run; done.
  - destruct Hkeep as [Hid Hsel]. rewrite <- Hid in Hr. run; done.
  - done.
Qed.

(** X8: While the entry of a component exists, no sequence of operations
    that keep its id and store (anything but a forced regeneration)
    constructs an external object. *)
Lemma no_reconstruction_run (ops : list Op) :
  ∀ m : Machine E ES PS,
  Forall (keepsIdentity (id (this_props m)) (selectStore (this_props m))) ops →
  is_Some (heap m (selectStore (this_props m)) !! id (this_props m)) →
  constructions (log (run_ops ops m)) = 0.
Proof.
  induction ops as [|op ops IH]; intros m Hops Hentry; [done|].
  apply Forall_cons in Hops as [Hop Hops]. cbn [run_ops]. unfold bind.
  destruct (no_reconstruction m op Hop Hentry) as [Hcons Hentry'].
  destruct (identity_step m op Hop) as (Hid & Hsel).
  destruct (run_op op m) as [[[]|e|] m1 l1]; cbn [final log] in *;
    [|done..].
  specialize (IH m1). rewrite Hid, Hsel in IH. specialize (IH Hops Hentry').
  destruct (run_ops ops m1) as [r m2 l2]; cbn [log] in *.
  by rewrite constructions_app, Hcons, IH.
Qed.

Lemma dom_contains_child (d : gmap Node Node) (p c : Node) :
  d !! c = Some p → dom_contains d p c = true.
Proof.
  intros Hc. unfold dom_contains. cbn [walk]. rewrite Hc.
  apply orb_true_intro. right.
  destruct (size d); cbn [walk]; by rewrite bool_decide_eq_true_2.
Qed.

Lemma walk_leaf (fuel : nat) (d : gmap Node Node) (a n : Node) :
  (∀ q, d !! q ≠ Some a) → n ≠ a → walk fuel d a n = false.
Proof.
  intros Hleaf. revert n. induction fuel as [|fuel IH]; intros n Hn; cbn [walk].
  - by rewrite bool_decide_eq_false_2.
  - rewrite bool_decide_eq_false_2 by done. cbn.
    destruct (d !! n) as [q|] eqn:Hq; [|done].
    apply IH. intros ->. by apply (Hleaf n).
Qed.










(** *** Further behaviour of the bridge *)

Lemma not_inherited_not_proto (k : string) :
  inherited k = false → String.eqb k "__proto__" = false.
Proof.
  intros Hinh. apply String.eqb_neq. intros ->. done.
Qed.

(** X1: A mount (the [ref] callback with an element) of a component whose
    id is not the name of a member that the store inherits returns
    normally exactly when the container can be attached; it then leaves
    the component attached to the element, the entry registered with the
    state of the current props, and the container of the entry inside the
    element. *)
Theorem mount_postcondition (m : Machine E ES PS) (pc : Node) :
  inherited (id (this_props m)) = false →
  let o := remountExternalObject (Some pc) m in
  (result o = Returned tt ↔ attachable m pc)
  ∧ (result o = Returned tt →
       this_parentContainer (final o) = Some pc
       ∧ ∃ r, heap (final o) (selectStore (this_props m)) !! id (this_props m)
                = Some r
              ∧ state r = Some (propsToExternalObjectState (this_props m))
              ∧ ∀ c, container r = Some c →
                     dom_contains (parentNode (final o)) pc c = true).
Proof.
  intros Hinh. pose proof (not_inherited_not_proto _ Hinh) as Hproto.
  cbn zeta. unfold attachable.
  assert (Hnew : ∀ c d, dom_contains (<[c := pc]> d) pc c = true).
  { intros c d. apply dom_contains_child, lookup_insert_eq. }
  run;
    repeat match goal with
    | H : negb _ = true |- _ => apply negb_true_iff in H
    | H : negb _ = false |- _ => apply negb_false_iff in H
    end;
    (split; [intuition congruence|]);
    try (intros [=]; fail);
    intros _; (split; [done|]);
    eexists; (split; [rewrite ?fn_lookup_insert, ?lookup_insert_eq; reflexivity|]);
    (split; [done|]);
    cbn [container]; intros c Hc; simplify_eq; try done; apply Hnew.
Qed.

(** X2: A forced regeneration of a mounted component (whose id is not the
    name of an inherited member) replaces the entry: the old container is
    removed from the parent element, a new container is made and attached,
    a new external object is constructed once and registered under the
    same id, and the update routine is called with [undefined] as previous
    state, whatever state the old entry held.  The new container is taken
    to be a new element: not the parent element, not the old container and
    without children. *)
Theorem regeneration_starts_afresh (m : Machine E ES PS) (pc : Node) (r : Ref) :
  this_parentContainer m = Some pc →
  inherited (id (this_props m)) = false →
  heap m (selectStore (this_props m)) !! id (this_props m) = Some r →
  (∀ c, container r = Some c → parentNode m !! c = Some pc) →
  (∀ c, newContainer (this_props m) (id (this_props m)) (created m) = Some c →
        c ≠ pc ∧ container r ≠ Some c ∧ ∀ q, parentNode m !! q ≠ Some c) →
  let o := forceRegeneration m in
  let fresh := newContainer (this_props m) (id (this_props m)) (created m) in
  result o = Returned tt
  ∧ constructions (log o) = 1
  ∧ updates (log o) = [(None, propsToExternalObjectState (this_props m))]
  ∧ heap (final o) (selectStore (this_props m)) !! id (this_props m) =
      Some {| object := newExternalObject (this_props m) pc fresh;
              state := Some (propsToExternalObjectState (this_props m));
              container := fresh |}
  ∧ this_parentContainer (final o) = Some pc
  ∧ (∀ c, container r = Some c → parentNode (final o) !! c = None)
  ∧ (∀ c, fresh = Some c → parentNode (final o) !! c = Some pc).
Proof.
  intros Hpc Hinh Hr Hchild Hfresh. cbn zeta.
  pose proof (not_inherited_not_proto _ Hinh) as Hproto.
  assert (Hleaf : ∀ c d,
            newContainer (this_props m) (id (this_props m)) (created m) = Some c →
            (∀ q, d !! q = Some c → parentNode m !! q = Some c) →
            dom_contains d c pc = false).
  { intros c d Hc Hd. destruct (Hfresh c Hc) as (Hne & _ & Hl).
    unfold dom_contains. apply walk_leaf; [|congruence].
    intros q Hq. by apply (Hl q), Hd. }
  destruct (container r) as [c0|] eqn:Hc0.
  - pose proof (Hchild c0 eq_refl) as Hparent.
    pose proof (bool_decide_eq_true_2 _ Hparent) as Hdec.
    destruct (newContainer (this_props m) (id (this_props m)) (created m))
      as [c1|] eqn:Hc1.
    + assert (dom_contains (delete c0 (parentNode m)) c1 pc = false) as Hout.
      { apply Hleaf; [done|]. intros q Hq.
        apply lookup_delete_Some in Hq as [_ Hq]. done. }
      destruct (Hfresh c1 eq_refl) as (_ & Hold & _).
      run; (split_and!; [try finish..| |]).
      all: try (intros c [= <-]; rewrite lookup_insert_ne by congruence;
                apply lookup_delete_eq).
      all: intros c [= <-]; apply lookup_insert_eq.
    + run; (split_and!;
              [try finish..| intros c [= <-]; apply lookup_delete_eq | done]).
  - destruct (newContainer (this_props m) (id (this_props m)) (created m))
      as [c1|] eqn:Hc1.
    + assert (dom_contains (parentNode m) c1 pc = false) as Hout.
      { apply Hleaf; [done|]. done. }
      run; (split_and!;
              [try finish..| done | intros c [= <-]; apply lookup_insert_eq]).
    + run; (split_and!; [try finish..| done | done]).
Qed.

(** X3: A forced regeneration of a component without store entry, whose
    id is not the name of an inherited member, does nothing: it reads the
    store once, writes nothing, calls no method of the concrete component
    and leaves the document alone. *)
Theorem regeneration_without_entry (m : Machine E ES PS) :
  heap m (selectStore (this_props m)) !! id (this_props m) = None →
  inherited (id (this_props m)) = false →
  forceRegeneration m =
    {| result := Returned tt; final := m;
       log := [StoreGet (selectStore (this_props m)) (id (this_props m))] |}.
Proof.
  intros Hno Hinh. run. done.
Qed.

(** X5: An empty id is refused before anything happens: creating a component
    and receiving props with an empty id throw the error of [checkProps];
    receiving such props reads no store, calls no method of the concrete
    component and keeps the current props. *)
Theorem empty_id_is_refused (m : Machine E ES PS) (props : Props PS) :
  id props = "" →
  result (run_op (New props) m)
    = Thrown (Error "cannot construct ExternalObjectComponent without id")
  ∧ log (run_op (New props) m) = []
  ∧ heap (final (run_op (New props) m)) = heap m
  ∧ run_op (Receive props) m =
      {| result := Thrown (Error "cannot construct ExternalObjectComponent without id");
         final := m; log := [] |}.
Proof.
  intros Hid. assert (String.eqb (id props) "" = true) as Heq
    by (by apply String.eqb_eq).
  split_and!; run; done.
Qed.

(** X6: When a mounted component receives props with another id for which
    the store holds no entry and which is not the name of an inherited
    member, [componentWillUpdate] creates no entry for it: it remounts the
    entry of the current id and calls the update routine with the state of
    the current props, not of the next ones. *)
Theorem new_id_is_not_registered_on_update
    (m : Machine E ES PS) (nextProps : Props PS) (pc : Node) (r : Ref) :
  this_parentContainer m = Some pc →
  id nextProps ≠ "" →
  inherited (id nextProps) = false →
  heap m (selectStore (this_props m)) !! id nextProps = None →
  heap m (selectStore (this_props m)) !! id (this_props m) = Some r →
  (∀ c, container r = Some c → dom_contains (parentNode m) pc c = true) →
  let o := componentWillUpdate nextProps m in
  result o = Returned tt
  ∧ constructions (log o) = 0
  ∧ updates (log o) =
      [(state r, propsToExternalObjectState (this_props m))]
  ∧ heap (final o) (selectStore (this_props m)) !! id nextProps = None
  ∧ parentNode (final o) = parentNode m.
Proof.
  intros Hpc Hne%String.eqb_neq Hinh Hno Hr Hin. cbn zeta.
  assert (id nextProps ≠ id (this_props m)) as Hdiff by congruence.
  destruct (container r) as [c|] eqn:Hc.
  - pose proof (Hin c eq_refl) as Hinside.
    assert (negb (dom_contains (parentNode m) pc c) = false) as Hneg
      by (by rewrite Hinside).
    run; rewrite ?fn_lookup_insert, ?lookup_insert_ne by done; done.
  - run; rewrite ?fn_lookup_insert, ?lookup_insert_ne by done; done.
Qed.

(** X7: Components are isolated by id: an operation of a component changes no
    entry registered under an id other than its own (or, for received
    props, the id of those props), in any store. *)
Theorem other_ids_untouched (m : Machine E ES PS) (op : Op) (s : StoreLoc) (k : string) :
  k ≠ id (this_props m) →
  (∀ nextProps, op = Receive nextProps → k ≠ id nextProps) →
  heap (final (run_op op m)) s !! k = heap m s !! k.
Proof.
  intros Hk Hnext.
  assert (∀ nextProps, op = Receive nextProps → id nextProps ≠ k) as Hnext'
    by (intros ? ? ?; by eapply Hnext).
  assert (id (this_props m) ≠ k) as Hk' by done.
  destruct (decide (selectStore (this_props m) = s)) as [<-|Hs];
    destruct op as [props|[el|]|nextProps|];
    try specialize (Hnext' nextProps eq_refl);
    run;
    repeat first
      [ rewrite fn_lookup_insert
      | rewrite fn_lookup_insert_ne by done
      | rewrite lookup_insert_ne by done
      | rewrite lookup_delete_ne by done ];
    done.
Qed.

End BridgeProperties.

(** ** The plot panel as an instance *)

Section PlotPanelInstance.
Import ExternalObjectComponent.
Local Open Scope list_scope.

(** C7, as stated, fails for a component that gets no store through its
    props: the mount of the plot panel reads and writes the static
    default cache of the class, so not every store access goes to an
    injected store. *)
Lemma default_cache_used_without_injection :
  ¬ (∀ s, s ∈ accesses (log (run_op (Attach (Some 1)) (plotMachine None))) →
       ∃ ref, externalObjectStore (this_props (plotMachine None)) = Some ref
              ∧ s = InjectedStore ref).
Proof.
  intros Hall.
  destruct (Hall DEFAULT_EXTERNAL_OBJECT_CACHE) as (ref & Href & _).
  - apply list_elem_of_here.
  - discriminate Href.
Qed.

Lemma entries_outlive_operations_witness :
  kept (heap (plotMounted None))
       (heap (final (run_ops [Receive (plotProps None scatter);
                              Attach None; Attach (Some 2);
                              New (plotProps (Some 0) density)]
                       (plotMounted None)))).
Proof.
  apply (entries_outlive_operations (plotMounted None)).
  repeat constructor; discriminate.
Defined.







Lemma mount_postcondition_witness :
  let o := remountExternalObject (Some 1) (plotMachine None) in
  result o = Returned tt
  ∧ this_parentContainer (final o) = Some 1
  ∧ ∃ r, heap (final o) DEFAULT_EXTERNAL_OBJECT_CACHE !! "plot-1" = Some r
         ∧ state r = Some line
         ∧ ∀ c, container r = Some c →
                dom_contains (parentNode (final o)) 1 c = true.
Proof.
  intros o.
  destruct (mount_postcondition (plotMachine None) 1 eq_refl) as [Hiff Hpost].
  assert (result o = Returned tt) as Hres by reflexivity.
  split; [exact Hres|]. exact (Hpost Hres).
Defined.

Lemma regeneration_starts_afresh_witness :
  let o := forceRegeneration (plotMounted None) in
  updates (log o) = [(None, line)]
  ∧ parentNode (final o) !! 7 = None
  ∧ parentNode (final o) !! 8 = Some 1.
Proof.
  intros o.
  destruct (regeneration_starts_afresh (plotMounted None) 1
              {| object := tt; state := Some line; container := Some 7 |})
    as (_ & _ & Hups & _ & _ & Hold & Hnew).
  - reflexivity.
  - reflexivity.
  - vm_compute. reflexivity.
  - intros c [= <-]. vm_compute. reflexivity.
  - intros c [= <-]. split_and!; [discriminate..|].
    intros q.
    assert (parentNode (plotMounted None) = <[7 := 1]> ∅) as ->
      by (vm_compute; reflexivity).
    destruct (decide (q = 7)) as [->|Hq].
    + rewrite lookup_insert_eq. discriminate.
    + rewrite lookup_insert_ne by done. rewrite lookup_empty. discriminate.
  - split_and!; [exact Hups | by apply Hold | by apply Hnew].
Defined.

Lemma regeneration_without_entry_witness :
  forceRegeneration (plotMachine None) =
    {| result := Returned tt; final := plotMachine None;
       log := [StoreGet DEFAULT_EXTERNAL_OBJECT_CACHE "plot-1"] |}.
Proof.
  apply (regeneration_without_entry (plotMachine None)).
  - apply lookup_empty.
  - reflexivity.
Defined.

Lemma empty_id_is_refused_witness :
  log (run_op (New {| id := ""; externalObjectStore := None; debug := true;
                      own := line |}) (plotMachine None)) = [].
Proof.
  refine (proj1 (proj2 (empty_id_is_refused (plotMachine None) _ _))).
  reflexivity.
Defined.

Lemma new_id_is_not_registered_on_update_witness :
  updates (log (componentWillUpdate (otherProps scatter) (plotMounted None)))
    = [(Some line, line)].
Proof.
  refine (proj1 (proj2 (proj2
    (new_id_is_not_registered_on_update (plotMounted None) (otherProps scatter)
       1 {| object := tt; state := Some line; container := Some 7 |}
       _ _ _ _ _ _)))).
  - reflexivity.
  - discriminate.
  - reflexivity.
  - vm_compute. reflexivity.
  - vm_compute. reflexivity.
  - intros c [= <-]. vm_compute. reflexivity.
Defined.

Lemma other_ids_untouched_witness :
  heap (final (run_op Regenerate twoPlots))
       DEFAULT_EXTERNAL_OBJECT_CACHE !! "plot-1"
  = Some {| object := tt; state := Some line; container := Some 7 |}.
Proof.
  rewrite (other_ids_untouched twoPlots Regenerate
             DEFAULT_EXTERNAL_OBJECT_CACHE "plot-1").
  - vm_compute. reflexivity.
  - discriminate.
  - intros nextProps [=].
Defined.

Lemma no_reconstruction_run_witness :
  constructions
    (log (run_ops [Receive (plotProps None scatter); Attach None;
                   Attach (Some 2); Receive (plotProps None density)]
            (plotMounted None))) = 0.
Proof.
  apply (no_reconstruction_run _ (plotMounted None)).
  - repeat constructor.
  - vm_compute. eexists. reflexivity.
Defined.

Lemma regeneration_removes_entry_witness :
  let m := final (run_op (Attach None) (plotMounted None)) in
  result (forceRegeneration m) = Returned tt
  ∧ heap (final (forceRegeneration m)) DEFAULT_EXTERNAL_OBJECT_CACHE
      !! "plot-1" = None.
Proof.
  intros m.
  apply (regeneration_removes_entry m
           {| object := tt; state := Some line; container := Some 7 |}).
  - reflexivity.
  - vm_compute. reflexivity.
Defined.

End PlotPanelInstance.

(** ** The command line of the main process *)

Section MainProperties.
Import Main.
Local Open Scope nat_scope.

Lemma getOptionArg_loop_spec (options args : list string) (a : string) :
  ∀ fuel i, length args ≤ fuel + i →
  getOptionArg_loop fuel options args i = Some a ↔
  ∃ j, i ≤ j ∧ args !! j = Some a ∧ a ∈ options ∧ S j < length args
       ∧ ∀ k b, i ≤ k < j → args !! k = Some b → b ∉ options.
Proof.
  induction fuel as [|fuel IH]; intros i Hlen; cbn [getOptionArg_loop].
  - split; [done|]. intros (j & Hij & Hj & _ & Hlt & _). lia.
  - destruct (i <? length args)%nat eqn:Hi.
    + apply Nat.ltb_lt in Hi.
      destruct (lookup_lt_is_Some_2 args i Hi) as [arg Harg]. rewrite Harg.
      destruct (bool_decide (arg ∈ options) && (i <? length args - 1)%nat)
        eqn:Hhit.
      * apply andb_prop in Hhit as [Hopt%bool_decide_eq_true Hpos%Nat.ltb_lt].
        split.
        -- intros [= <-]. exists i. split_and!; try done; [lia|].
           intros k b Hk. lia.
        -- intros (j & Hij & Hj & Ha & Hlt & Hfirst).
           destruct (decide (j = i)) as [->|Hne]; [congruence|].
           exfalso. apply (Hfirst i arg); [lia | done | done].
      * rewrite IH by lia. split.
        -- intros (j & Hij & Hj & Ha & Hlt & Hfirst).
           exists j. split_and!; try done; [lia|].
           intros k b Hk Hb. destruct (decide (k = i)) as [->|Hne].
           ++ intros Hopt. rewrite Harg in Hb. injection Hb as <-.
              apply andb_false_iff in Hhit as [Hn|Hn].
              ** by apply bool_decide_eq_false in Hn.
              ** apply Nat.ltb_ge in Hn. lia.
           ++ apply (Hfirst k b); [lia | done].
        -- intros (j & Hij & Hj & Ha & Hlt & Hfirst).
           destruct (decide (j = i)) as [->|Hne].
           ++ exfalso. rewrite Harg in Hj. injection Hj as <-.
              apply andb_false_iff in Hhit as [Hn|Hn].
              ** by apply bool_decide_eq_false in Hn.
              ** apply Nat.ltb_ge in Hn. lia.
           ++ exists j. split_and!; try done; [lia|].
              intros k b Hk. apply Hfirst. lia.
    + apply Nat.ltb_ge in Hi. split; [done|].
      intros (j & Hij & Hj & _ & Hlt & _). lia.
Qed.

Lemma getOptionArg_spec (argv options : list string) (a : string) :
  getOptionArg argv options = Some a ↔
  ∃ j, drop 1 argv !! j = Some a ∧ a ∈ options
       ∧ S j < length (drop 1 argv)
       ∧ ∀ k b, k < j → drop 1 argv !! k = Some b → b ∉ options.
Proof.
  unfold getOptionArg. cbn zeta.
  rewrite getOptionArg_loop_spec by lia. split.
  - intros (j & _ & Hj & Ha & Hlt & Hfirst). exists j.
    split_and!; try done. intros k b Hk. apply Hfirst. lia.
  - intros (j & Hj & Ha & Hlt & Hfirst). exists j.
    split_and!; try done; [lia|]. intros k b Hk. apply Hfirst. lia.
Qed.

Lemma getOptionArg_in_options (argv options : list string) (a : string) :
  getOptionArg argv options = Some a → a ∈ options.
Proof. by intros (j & _ & Ha & _)%getOptionArg_spec. Qed.

(** X14: [getOptionArg] returns the first command-line argument (after the
    program name) that is one of the given option names and is not the
    last argument; the result is therefore the option name itself, never
    the argument that follows it, and it is [null] when no option name
    precedes another argument. *)
Theorem getOptionArg_returns_option_name (argv options : list string) :
  (∀ a, getOptionArg argv options = Some a ↔
     ∃ j, drop 1 argv !! j = Some a ∧ a ∈ options
          ∧ S j < length (drop 1 argv)
          ∧ ∀ k b, k < j → drop 1 argv !! k = Some b → b ∉ options)
  ∧ (∀ a, getOptionArg argv options = Some a → a ∈ options)
  ∧ (length argv ≤ 2 → getOptionArg argv options = None).
Proof.
  split_and!.
  - apply getOptionArg_spec.
  - apply getOptionArg_in_options.
  - intros Hlen. apply eq_None_not_Some.
    intros [a (j & _ & _ & Hlt & _)%getOptionArg_spec].
    rewrite length_drop in Hlt. lia.
Qed.

Section Environment.
Variable argv : list string.
Variable home : string.
Variable path_join : string → string → string.
Variable path_resolve : string → string.
Variable fs : string → option FileKind.

(** X15: When the command line carries [--prefs] or [-p] before another
    argument, [getPrefsFile] returns the first such option name itself,
    not the path given after it; otherwise it returns the default file in
    the application data directory.  [getConfigFile] behaves the same with
    [--config] and [-c], its default being the resolved [cate-config.js]
    when that file exists and [null] otherwise. *)
Theorem option_files_are_option_names :
  let args := drop 1 argv in
  let prefsDefault := path_join (path_join home ".cate") "cate-prefs.json" in
  let configDefault :=
    if bool_decide (is_Some (fs (path_resolve "cate-config.js")))
    then Some (path_resolve "cate-config.js") else None in
  (∀ j a, args !! j = Some a → a ∈ ["--prefs"; "-p"] → S j < length args →
          (∀ k b, k < j → args !! k = Some b → b ∉ ["--prefs"; "-p"]) →
          getOptionArg argv ["--prefs"; "-p"] = Some a
          ∧ getPrefsFile argv home path_join = a)
  ∧ ((∀ j a, args !! j = Some a → a ∈ ["--prefs"; "-p"] →
             length args ≤ S j) →
       getOptionArg argv ["--prefs"; "-p"] = None
       ∧ getPrefsFile argv home path_join = prefsDefault)
  ∧ (∀ j a, args !! j = Some a → a ∈ ["--config"; "-c"] → S j < length args →
          (∀ k b, k < j → args !! k = Some b → b ∉ ["--config"; "-c"]) →
          getOptionArg argv ["--config"; "-c"] = Some a
          ∧ getConfigFile argv path_resolve fs = Some a)
  ∧ ((∀ j a, args !! j = Some a → a ∈ ["--config"; "-c"] →
             length args ≤ S j) →
       getOptionArg argv ["--config"; "-c"] = None
       ∧ getConfigFile argv path_resolve fs = configDefault).
Proof.
  cbn zeta. unfold getPrefsFile, getConfigFile, getAppDataDir. cbn zeta.
  assert (∀ options a, getOptionArg argv options = Some a →
            a ∈ options → "" ∉ options → given (Some a) = true) as Hgiven.
  { intros options a _ Ha Hempty. cbn. apply negb_true_iff, String.eqb_neq.
    by intros ->. }
  assert (∀ options,
            (∀ j a, drop 1 argv !! j = Some a → a ∈ options →
                    length (drop 1 argv) ≤ S j) →
            getOptionArg argv options = None) as Hnone.
  { intros options Hlast. apply eq_None_not_Some.
    intros [a (j & Hj & Ha & Hlt & _)%getOptionArg_spec].
    specialize (Hlast j a Hj Ha). lia. }
  split_and!.
  - intros j a Hj Ha Hlt Hfirst.
    assert (getOptionArg argv ["--prefs"; "-p"] = Some a) as Hget
      by (apply getOptionArg_spec; by exists j).
    rewrite Hget. split; [done|].
    rewrite (Hgiven _ a Hget Ha); [done|].
    intros [[=]|[[=]|[]%elem_of_nil]%elem_of_cons]%elem_of_cons.
  - intros Hlast. by rewrite (Hnone _ Hlast).
  - intros j a Hj Ha Hlt Hfirst.
    assert (getOptionArg argv ["--config"; "-c"] = Some a) as Hget
      by (apply getOptionArg_spec; by exists j).
    rewrite Hget. split; [done|].
    rewrite (Hgiven _ a Hget Ha); [done|].
    intros [[=]|[[=]|[]%elem_of_nil]%elem_of_cons]%elem_of_cons.
  - intros Hlast. by rewrite (Hnone _ Hlast).
Qed.

(** X16: [storePrefs] never creates the application data directory: it stores
    the preferences only when the directory exists already, and throws
    otherwise, [ENOENT] from [statSync] when the path is missing and
    [EEXIST] from [mkdirSync] when it is a file; the file system is left
    as it was. *)
Theorem storePrefs_needs_existing_directory :
  let dir := path_join home ".cate" in
  (fs dir = Some Directory →
     storePrefs argv home path_join fs =
       inr (fs, getPrefsFile argv home path_join))
  ∧ (fs dir = None → storePrefs argv home path_join fs = inl ENOENT)
  ∧ (fs dir = Some RegularFile → storePrefs argv home path_join fs = inl EEXIST)
  ∧ (∀ fs' file, storePrefs argv home path_join fs = inr (fs', file) →
       fs' = fs ∧ fs dir = Some Directory).
Proof.
  cbn zeta. unfold storePrefs, statSync, mkdirSync, getAppDataDir.
  destruct (fs (path_join home ".cate")) as [[]|] eqn:Hdir; cbn;
    rewrite ?Hdir; split_and!; try done.
  intros fs' file [= <- _]. done.
Qed.

End Environment.

End MainProperties.

(** ** The workspace tree *)

Section WorkspacePanelProperties.
Import WorkspacePanel.
Local Open Scope nat_scope.

Lemma fieldsAt_forEachNode (callback : Fields → Fields) (path : list nat) :
  ∀ nodes,
  fieldsAt (List.map (forEachNode_at callback) nodes) path
  = callback <$> fieldsAt nodes path.
Proof.
  induction path as [|i rest IH]; intros nodes; [done|].
  cbn [fieldsAt].
  change (List.map (forEachNode_at callback) nodes)
    with (forEachNode_at callback <$> nodes).
  rewrite list_lookup_fmap.
  destruct (nodes !! i) as [[fields childNodes]|]; [|done].
  cbn. destruct rest as [|j rest]; [done|].
  destruct childNodes as [children|]; cbn [default from_option]; unfold id.
  - apply IH.
  - apply (IH []).
Qed.

Lemma fieldsAt_alterAt (f : Fields → Fields) (p : list nat) :
  ∀ nodes q,
  fieldsAt (alterAt f p nodes) q
  = if decide (p = q) then f <$> fieldsAt nodes q else fieldsAt nodes q.
Proof.
  induction p as [|i rest IH]; intros nodes q.
  - cbn [alterAt]. case_decide; [|done]. by subst q.
  - destruct q as [|j rest'].
    { cbn. by case_decide. }
    cbn [alterAt fieldsAt].
    destruct (decide (i = j)) as [->|Hij].
    + rewrite list_lookup_alter, (decide_True (P := j = j)) by done.
      destruct (nodes !! j) as [[fields childNodes]|];
        cbn [fmap option_fmap option_map].
      * destruct rest as [|i' rest], rest' as [|j' rest'].
        -- by rewrite decide_True by done.
        -- by rewrite decide_False by done.
        -- by rewrite decide_False by done.
        -- destruct childNodes as [children|]; cbn [default from_option]; unfold id.
           ++ rewrite IH. repeat case_decide; congruence.
           ++ case_decide; [|done]. cbn. by destruct j'.
      * by case_decide.
    + rewrite list_lookup_alter_ne by done.
      rewrite decide_False by congruence. done.
Qed.

(** X17: A click without the shift key leaves at most the clicked node
    selected: every node other than the clicked one ends up deselected, and
    the clicked node ends up selected exactly when it was not selected
    before (so a click on a selected node clears the selection); labels,
    expansion and the shape of the tree stay as they are. *)
Theorem plain_click_selects_at_most_one
    (nodes : list ITreeNode) (nodePath q : list nat) (before : Fields) :
  fieldsAt nodes q = Some before →
  ∃ after,
    fieldsAt (handleNodeClick nodes nodePath false) q = Some after
    ∧ label after = label before
    ∧ isExpanded after = isExpanded before
    ∧ isSelected after =
        Some (if decide (nodePath = q)
              then match isSelected before with
                   | None => true
                   | Some b => negb b
                   end
              else false).
Proof.
  intros Hq. unfold handleNodeClick. cbn [negb forEachNode default from_option]; unfold id.
  rewrite fieldsAt_alterAt, fieldsAt_forEachNode, Hq.
  case_decide as Hp.
  - subst q. rewrite Hq. eexists. split; [reflexivity|]. done.
  - eexists. split; [reflexivity|]. done.
Qed.

Lemma plain_click_selects_at_most_one_witness :
  fieldsAt exampleNodes [0; 0]
  = Some {| label := "Resource #1"; isSelected := Some true;
            isExpanded := None |}
  ∧ ∃ after,
      fieldsAt (handleNodeClick exampleNodes [0; 1] false) [0; 0] = Some after
      ∧ label after = "Resource #1"
      ∧ isExpanded after = None
      ∧ isSelected after = Some false.
Proof.
  split; [reflexivity|].
  apply (plain_click_selects_at_most_one exampleNodes [0; 1] [0; 0]
           {| label := "Resource #1"; isSelected := Some true;
              isExpanded := None |}).
  reflexivity.
Defined.

(** X18: A click with the shift key held changes the clicked node only: it
    toggles its selection and leaves every other node, selected or not, as
    it was. *)
Theorem shift_click_toggles_one
    (nodes : list ITreeNode) (nodePath q : list nat) :
  fieldsAt (handleNodeClick nodes nodePath true) q =
    if decide (nodePath = q)
    then (fun before =>
            setSelected (Some match isSelected before with
                              | None => true
                              | Some b => negb b
                              end) before) <$> fieldsAt nodes q
    else fieldsAt nodes q.
Proof.
  unfold handleNodeClick. cbn [negb]. rewrite fieldsAt_alterAt.
  case_decide as Hp; [|done]. subst q.
  by destruct (fieldsAt nodes nodePath).
Qed.

(** X19: Collapsing and expanding a node set the expansion flag of that node
    and nothing else, so the selection survives; whatever was done before,
    a node is expanded after an expand and collapsed after a collapse. *)
Theorem collapse_and_expand_touch_one_flag
    (nodes : list ITreeNode) (nodePath q : list nat) :
  fieldsAt (handleNodeCollapse nodes nodePath) q =
    (if decide (nodePath = q)
     then setExpanded (Some false) <$> fieldsAt nodes q
     else fieldsAt nodes q)
  ∧ fieldsAt (handleNodeExpand nodes nodePath) q =
    (if decide (nodePath = q)
     then setExpanded (Some true) <$> fieldsAt nodes q
     else fieldsAt nodes q)
  ∧ fieldsAt (handleNodeExpand (handleNodeCollapse nodes nodePath) nodePath) q
    = fieldsAt (handleNodeExpand nodes nodePath) q
  ∧ isSelected <$> fieldsAt (handleNodeCollapse nodes nodePath) q
    = isSelected <$> fieldsAt nodes q.
Proof.
  unfold handleNodeCollapse, handleNodeExpand.
  rewrite !fieldsAt_alterAt. split_and!; try done.
  - case_decide; [|done]. by destruct (fieldsAt nodes q).
  - case_decide; [|done]. by destruct (fieldsAt nodes q).
Qed.

Section Mount.
Context {W : Type}.
Variable newWorkspace : option string → Settled W.
Variable openWorkspace : string → Settled W.

(** X20: When the panel is mounted with a workspace it does nothing.  Without
    one it opens the last workspace if that is asked for and a path is
    known, and falls back to a new workspace when the opening fails;
    otherwise it asks for a new workspace at once.  At most one workspace
    is dispatched: the opened one, or else the new one, and none when the
    last call is rejected. *)
Theorem mount_dispatches_one_workspace (props : Props W) :
  let effects := componentDidMount newWorkspace openWorkspace props in
  (is_Some (workspace props) → effects = [])
  ∧ (workspace props = None →
       calls effects =
         match lastWorkspace props with
         | Some path =>
             match openWorkspace path with
             | Resolved _ => [CallOpenWorkspace path]
             | Rejected _ => [CallOpenWorkspace path; CallNewWorkspace None]
             end
         | None => [CallNewWorkspace None]
         end
       ∧ dispatched effects =
         match lastWorkspace props with
         | Some path =>
             match openWorkspace path, newWorkspace None with
             | Resolved w, _ => [w]
             | Rejected _, Resolved w => [w]
             | Rejected _, Rejected _ => []
             end
         | None =>
             match newWorkspace None with
             | Resolved w => [w]
             | Rejected _ => []
             end
         end)
  ∧ length (dispatched effects) ≤ 1.
Proof.
  cbn zeta. unfold componentDidMount, openExistingWorkspace,
    createInitialWorkspace.
  destruct (workspace props) as [w|]; cbn.
  - split_and!; [done | done | lia].
  - split_and!; [by intros [? [=]] | intros _ |];
      destruct (lastWorkspace props) as [path|];
      try destruct (openWorkspace path);
      destruct (newWorkspace None); cbn; try done; lia.
Qed.

End Mount.

End WorkspacePanelProperties.

(** ** The filters of the operations panel *)

Section OperationsPanelProperties.
Import OperationsPanel.
Local Open Scope nat_scope.
Local Open Scope list_scope.

Lemma Set_has_true (x : string) (s : JsSet) : Set_has x s = true ↔ x ∈ s.
Proof. apply bool_decide_eq_true. Qed.

Lemma elem_of_Set_add (y x : string) (s : JsSet) :
  y ∈ Set_add x s ↔ y = x ∨ y ∈ s.
Proof.
  unfold Set_add, Set_has. case_bool_decide.
  - split; [by right|]. by intros [->|].
  - rewrite elem_of_app, list_elem_of_singleton. tauto.
Qed.

Lemma NoDup_Set_add (x : string) (s : JsSet) : NoDup s → NoDup (Set_add x s).
Proof.
  intros Hs. unfold Set_add, Set_has. case_bool_decide; [done|].
  apply NoDup_app. split_and!; [done| |apply NoDup_singleton].
  intros y Hy ->%list_elem_of_singleton. done.
Qed.

Lemma Set_new_acc (l : list string) :
  ∀ s, NoDup s →
  NoDup (foldl (fun s x => Set_add x s) s l)
  ∧ ∀ y, y ∈ foldl (fun s x => Set_add x s) s l ↔ y ∈ s ∨ y ∈ l.
Proof.
  induction l as [|x l IH]; intros s Hs; cbn [foldl].
  - split; [done|]. intros y. rewrite elem_of_nil. tauto.
  - destruct (IH (Set_add x s) (NoDup_Set_add x s Hs)) as [Hnd Hel].
    split; [done|]. intros y.
    rewrite Hel, elem_of_Set_add, elem_of_cons. tauto.
Qed.

Lemma NoDup_Set_new (l : option (list string)) : NoDup (Set_new l).
Proof. apply Set_new_acc, NoDup_nil_2. Qed.

Lemma elem_of_Set_new (l : option (list string)) (y : string) :
  y ∈ Set_new l ↔ y ∈ default [] l.
Proof.
  unfold Set_new.
  destruct (Set_new_acc (default [] l) [] (NoDup_nil_2)) as [_ ->].
  rewrite elem_of_nil. tauto.
Qed.

Lemma Set_new_NoDup_acc (l : list string) :
  ∀ s, NoDup (s ++ l) → foldl (fun s x => Set_add x s) s l = s ++ l.
Proof.
  induction l as [|x l IH]; intros s Hnd; cbn [foldl].
  - by rewrite app_nil_r.
  - assert (Set_add x s = s ++ [x]) as ->.
    { unfold Set_add, Set_has. case_bool_decide as Hin; [|done].
      apply NoDup_app in Hnd as (_ & Hdisj & _).
      destruct (Hdisj x Hin). by left. }
    rewrite IH; rewrite <- app_assoc; done.
Qed.

Lemma Set_new_NoDup (l : list string) : NoDup l → Set_new (Some l) = l.
Proof. intros Hl. by apply (Set_new_NoDup_acc l []). Qed.

Lemma elem_of_Set_delete (y x : string) (s : JsSet) :
  y ∈ Set_delete x s ↔ y ≠ x ∧ y ∈ s.
Proof.
  unfold Set_delete. rewrite !list_elem_of_In, filter_In, negb_true_iff.
  rewrite String.eqb_neq. tauto.
Qed.

Lemma NoDup_Set_delete (x : string) (s : JsSet) :
  NoDup s → NoDup (Set_delete x s).
Proof.
  unfold Set_delete. rewrite !NoDup_ListNoDup. apply List.NoDup_filter.
Qed.

Lemma Set_delete_absent (x : string) (s : JsSet) :
  x ∉ s → Set_delete x s = s.
Proof.
  unfold Set_delete. induction s as [|y s IH]; [done|]. intros Hx. cbn.
  apply not_elem_of_cons in Hx as [Hxy Hx].
  destruct (String.eqb_spec y x) as [->|_]; [done|]. cbn. by rewrite IH.
Qed.

Lemma Set_delete_add (x : string) (s : JsSet) :
  Set_delete x (Set_add x s) = Set_delete x s.
Proof.
  unfold Set_add, Set_has. case_bool_decide; [done|].
  unfold Set_delete. rewrite List.filter_app. cbn.
  rewrite String.eqb_refl. cbn. by rewrite app_nil_r.
Qed.

(** X21: The filter tags are kept as a set in insertion order: adding and
    removing a tag give a list without duplicates in which the other tags
    of the filter are as before; adding a tag twice is adding it once, and
    removing a tag after adding it gives what removing it at once gives, so
    for a duplicate-free filter without the tag the removal undoes the
    addition. *)
Theorem filter_tags_are_a_set (props : Props) (tagName : string) :
  let current := default [] (operationFilterTags props) in
  ∃ added removed,
    addTagName props tagName = setOperationFilterTags added
    ∧ removeTagName props tagName = setOperationFilterTags removed
    ∧ NoDup added ∧ NoDup removed
    ∧ (∀ x, x ∈ added ↔ x = tagName ∨ x ∈ current)
    ∧ (∀ x, x ∈ removed ↔ x ≠ tagName ∧ x ∈ current)
    ∧ addTagName (withFilterTags props added) tagName
      = setOperationFilterTags added
    ∧ removeTagName (withFilterTags props added) tagName
      = setOperationFilterTags removed
    ∧ (NoDup current → tagName ∉ current →
         added = current ++ [tagName] ∧ removed = current).
Proof.
  cbn zeta. unfold addTagName, removeTagName, Array_from.
  eexists _, _. split; [reflexivity|]. split; [reflexivity|].
  pose proof (NoDup_Set_new (operationFilterTags props)) as Hnd.
  pose proof (NoDup_Set_add tagName _ Hnd) as Hadd.
  split_and!.
  - done.
  - by apply NoDup_Set_delete.
  - intros x. by rewrite elem_of_Set_add, elem_of_Set_new.
  - intros x. by rewrite elem_of_Set_delete, elem_of_Set_new.
  - cbn [withFilterTags operationFilterTags]. f_equal.
    rewrite (Set_new_NoDup _ Hadd).
    unfold Set_add at 1. rewrite (proj2 (Set_has_true _ _)); [done|].
    apply elem_of_Set_add. by left.
  - cbn [withFilterTags operationFilterTags]. f_equal.
    by rewrite (Set_new_NoDup _ Hadd), Set_delete_add.
  - intros Hcur Hnot.
    assert (Set_new (operationFilterTags props)
            = default [] (operationFilterTags props)) as ->.
    { destruct (operationFilterTags props) as [l|]; [|done].
      by apply Set_new_NoDup. }
    split.
    + unfold Set_add. destruct (Set_has _ _) eqn:Hhas; [|done].
      by apply Set_has_true in Hhas.
    + by apply Set_delete_absent.
Qed.

Lemma prefix_spec (sub s : string) :
  String.prefix sub s = true ↔ ∃ b, s = sub +:+ b.
Proof.
  revert s. induction sub as [|c sub IH]; intros s.
  - split; [intros _; by exists s|]. intros _. by destruct s.
  - destruct s as [|d s]; cbn.
    + split; [done|]. by intros [b [=]].
    + destruct (Ascii.ascii_dec c d) as [->|Hcd].
      * rewrite IH. split; intros [b Hb]; exists b; [by rewrite Hb|].
        by injection Hb.
      * split; [done|]. intros [b [=]]. congruence.
Qed.

Lemma includes_spec (s sub : string) :
  includes s sub = true ↔ ∃ a b, s = a +:+ sub +:+ b.
Proof.
  induction s as [|c s IH]; cbn [includes]; rewrite orb_true_iff, prefix_spec.
  - split.
    + intros [[b Hb]|]; [|done]. by exists "", b.
    + intros (a & b & Hab). left. destruct a; [by exists b|done].
  - rewrite IH. split.
    + intros [[b Hb]|(a & b & Hab)]; [by exists "", b|].
      exists (String c a), b. cbn. by rewrite Hab.
    + intros (a & b & Hab). destruct a as [|c' a].
      * left. by exists b.
      * right. exists a, b. by injection Hab.
Qed.

Lemma filteredOperations_filter (props : Props) :
  filteredOperations props =
    List.filter
      (fun op => nameMatches (operationFilterExpr props) op
                 && hasTag (default [] (operationFilterTags props)) op)
      (default [] (operations props)).
Proof.
  unfold filteredOperations.
  destruct (negb (given (operationFilterExpr props))) eqn:Hexpr;
    [destruct (length (default [] (operationFilterTags props)) =? 0) eqn:Hlen|];
    cbn [andb]; [|done..].
  induction (default [] (operations props)) as [|op l IH]; [done|].
  cbn [List.filter]. unfold nameMatches at 1, hasTag at 1.
  rewrite Hexpr, Hlen. cbn. by rewrite <- IH.
Qed.

Lemma hasTag_spec (filterTags : list string) (op : OperationState) :
  hasTag filterTags op = true
  ↔ ∀ tag, tag ∈ filterTags → tag ∈ default [] (tags op).
Proof.
  unfold hasTag. rewrite orb_true_iff, forallb_forall, Nat.eqb_eq.
  split.
  - intros [Hlen|Hall] tag Htag.
    + destruct filterTags; [by apply elem_of_nil in Htag|done].
    + apply elem_of_Set_new, Set_has_true, Hall. by apply list_elem_of_In.
  - intros Hall. right. intros tag Htag%list_elem_of_In.
    by apply Set_has_true, elem_of_Set_new, Hall.
Qed.

Lemma nameMatches_spec (expr : option string) (op : OperationState) :
  nameMatches expr op = true
  ↔ ∀ e, expr = Some e → e ≠ "" → ∃ a b, name op = a +:+ e +:+ b.
Proof.
  unfold nameMatches, given. destruct expr as [e|]; cbn.
  - destruct (String.eqb_spec e "") as [->|Hne]; cbn.
    + split; [|done]. by intros _ e [= <-].
    + rewrite includes_spec. split.
      * by intros Hab e' [= <-] _.
      * intros H. by apply H.
  - split; [|done]. by intros _ e [=].
Qed.

Lemma filter_sublist {A} (f : A → bool) (l : list A) :
  sublist (List.filter f l) l.
Proof.
  induction l as [|x l IH]; [done|]. cbn.
  destruct (f x); by constructor.
Qed.

Lemma filter_sublist_impl {A} (f g : A → bool) (l : list A) :
  (∀ x, f x = true → g x = true) →
  sublist (List.filter f l) (List.filter g l).
Proof.
  intros Hfg. induction l as [|x l IH]; [done|]. cbn.
  destruct (f x) eqn:Hf.
  - rewrite (Hfg x Hf). by constructor.
  - destruct (g x); by try constructor.
Qed.

(** X22: The list shows, in the order of the operations, exactly those whose
    name contains the filter expression (when one is given) and whose tags
    include every tag of the filter; a missing or empty expression and an
    empty tag filter exclude nothing. *)
Theorem filtered_operations_are_the_matching_ones (props : Props) :
  sublist (filteredOperations props) (default [] (operations props))
  ∧ ∀ op, op ∈ filteredOperations props ↔
      op ∈ default [] (operations props)
      ∧ (∀ e, operationFilterExpr props = Some e → e ≠ "" →
           ∃ a b, name op = a +:+ e +:+ b)
      ∧ (∀ tag, tag ∈ default [] (operationFilterTags props) →
           tag ∈ default [] (tags op)).
Proof.
  rewrite filteredOperations_filter. split; [apply filter_sublist|].
  intros op.
  rewrite !list_elem_of_In, filter_In, andb_true_iff, nameMatches_spec,
    hasTag_spec.
  tauto.
Qed.

(** X23: Adding a tag to the filter never adds an operation to the list, and
    every operation then listed carries the tag; removing a tag never
    removes an operation from the list. *)
Theorem adding_a_tag_narrows_the_list
    (props : Props) (tagName : string) (added removed : list string) :
  addTagName props tagName = setOperationFilterTags added →
  removeTagName props tagName = setOperationFilterTags removed →
  sublist (filteredOperations (withFilterTags props added))
    (filteredOperations props)
  ∧ (∀ op, op ∈ filteredOperations (withFilterTags props added) →
       tagName ∈ default [] (tags op))
  ∧ sublist (filteredOperations props)
      (filteredOperations (withFilterTags props removed)).
Proof.
  unfold addTagName, removeTagName, Array_from. intros [= <-] [= <-].
  rewrite !filteredOperations_filter.
  cbn [withFilterTags operations operationFilterTags operationFilterExpr
       default from_option]; unfold id.
  split_and!.
  - apply filter_sublist_impl. intros op.
    rewrite !andb_true_iff, !hasTag_spec. intros [Hname Htags].
    split; [done|]. intros tag Htag. apply Htags.
    apply elem_of_Set_add. right. by apply elem_of_Set_new.
  - intros op. rewrite list_elem_of_In, filter_In, andb_true_iff, hasTag_spec.
    intros (_ & _ & Htags). apply Htags, elem_of_Set_add. by left.
  - apply filter_sublist_impl. intros op.
    rewrite !andb_true_iff, !hasTag_spec. intros [Hname Htags].
    split; [done|]. intros tag [_ Htag]%elem_of_Set_delete.
    by apply Htags, elem_of_Set_new.
Qed.

Lemma adding_a_tag_narrows_the_list_witness :
  addTagName exampleProps "netcdf" = setOperationFilterTags ["input"; "netcdf"]
  ∧ removeTagName exampleProps "netcdf" = setOperationFilterTags ["input"]
  ∧ sublist
      (filteredOperations (withFilterTags exampleProps ["input"; "netcdf"]))
      (filteredOperations exampleProps)
  ∧ (∀ op, op ∈ filteredOperations
                  (withFilterTags exampleProps ["input"; "netcdf"]) →
       "netcdf" ∈ default [] (tags op))
  ∧ sublist (filteredOperations exampleProps)
      (filteredOperations (withFilterTags exampleProps ["input"])).
Proof.
  split; [reflexivity|]. split; [reflexivity|].
  apply (adding_a_tag_narrows_the_list exampleProps "netcdf"); reflexivity.
Defined.

Lemma Map_get_set (k k' : string) (v : nat) (m : JsMap) :
  Map_get k (Map_set k' v m) = if decide (k = k') then Some v else Map_get k m.
Proof.
  induction m as [|[k0 v0] m IH]; cbn.
  - destruct (String.eqb_spec k' k) as [->|Hne].
    + by rewrite decide_True.
    + by rewrite decide_False.
  - destruct (String.eqb_spec k0 k') as [->|Hne]; cbn.
    + destruct (String.eqb_spec k' k) as [->|Hne'].
      * by rewrite decide_True.
      * by rewrite decide_False.
    + destruct (String.eqb_spec k0 k) as [->|Hne'].
      * by rewrite decide_False.
      * done.
Qed.

Lemma Map_set_keys (k : string) (v : nat) (m : JsMap) :
  (Map_set k v m).*1 = Set_add k m.*1.
Proof.
  unfold Set_add, Set_has. induction m as [|[k0 v0] m IH]; cbn; [done|].
  destruct (String.eqb_spec k0 k) as [->|Hne]; cbn.
  - rewrite bool_decide_eq_true_2; [done|]. by left.
  - rewrite IH. case_bool_decide as Hin.
    + rewrite bool_decide_eq_true_2; [done|]. by right.
    + rewrite bool_decide_eq_false_2; [done|].
      intros [?|?]%elem_of_cons; [congruence|done].
Qed.

Lemma Map_get_elem_of (k : string) (v : nat) (m : JsMap) :
  NoDup m.*1 → (k, v) ∈ m → Map_get k m = Some v.
Proof.
  induction m as [|[k0 v0] m IH]; cbn; intros Hnd Hin.
  - by apply elem_of_nil in Hin.
  - apply NoDup_cons in Hnd as [Hk0 Hnd].
    apply elem_of_cons in Hin as [[= <- <-]|Hin].
    + by rewrite String.eqb_refl.
    + destruct (String.eqb_spec k0 k) as [->|Hne]; [|by apply IH].
      destruct Hk0. apply list_elem_of_fmap. by exists (k, v).
Qed.

(** Counting the tags of one operation, and of all of them. *)
Lemma count_tags (l : list string) :
  ∀ m : JsMap,
  let m' := foldl (fun tagCounts tag =>
                     Map_set tag (default 0 (Map_get tag tagCounts) + 1)
                       tagCounts) m l in
  m'.*1 = foldl (fun s x => Set_add x s) m.*1 l
  ∧ ∀ k, default 0 (Map_get k m') = default 0 (Map_get k m) + count k l.
Proof.
  induction l as [|x l IH]; intros m; cbn [foldl count].
  - split; [done|]. intros k. lia.
  - destruct (IH (Map_set x (default 0 (Map_get x m) + 1) m)) as [Hkeys Hget].
    cbn zeta in *. split.
    + by rewrite Hkeys, Map_set_keys.
    + intros k. rewrite Hget, Map_get_set.
      destruct (String.eqb_spec x k) as [->|Hne].
      * rewrite decide_True by done. cbn. lia.
      * rewrite decide_False by done. lia.
Qed.

Lemma tagCounts_acc (operations : list OperationState) :
  ∀ m : JsMap, NoDup m.*1 →
  let m' := foldl (fun tagCounts op =>
                     foldl (fun tagCounts tag =>
                              Map_set tag
                                (default 0 (Map_get tag tagCounts) + 1)
                                tagCounts)
                       tagCounts (default [] (tags op))) m operations in
  NoDup m'.*1
  ∧ (∀ k, k ∈ m'.*1 ↔
       k ∈ m.*1 ∨ ∃ op, op ∈ operations ∧ k ∈ default [] (tags op))
  ∧ ∀ k, default 0 (Map_get k m') =
         default 0 (Map_get k m) + occurrences k operations.
Proof.
  induction operations as [|op ops IH]; intros m Hnd; cbn [foldl occurrences].
  - split_and!; [done| |intros k; lia].
    intros k. split; [by left|]. intros [?|(op & []%elem_of_nil & _)]. done.
  - destruct (count_tags (default [] (tags op)) m) as [Hkeys Hget].
    cbn zeta in Hkeys, Hget.
    destruct (Set_new_acc (default [] (tags op)) m.*1 Hnd) as [Hnd' Hel].
    rewrite <- Hkeys in Hnd', Hel.
    destruct (IH _ Hnd') as (Hnd'' & Hel' & Hget'). cbn zeta in *.
    split_and!; [done| |].
    + intros k. rewrite Hel', Hel. split.
      * intros [[?|?]|(op' & Hop' & Hk)]; [by left| |].
        -- right. exists op. split; [by left|done].
        -- right. exists op'. split; [by right|done].
      * intros [?|(op' & [->|Hop']%elem_of_cons & Hk)].
        -- by left; left.
        -- by left; right.
        -- right. by exists op'.
    + intros k. rewrite Hget', Hget. lia.
Qed.

Lemma count_pos (tag : string) (l : list string) : tag ∈ l → 0 < count tag l.
Proof.
  induction l as [|x l IH]; [by intros []%elem_of_nil|].
  intros [->|Hin]%elem_of_cons; cbn.
  - rewrite String.eqb_refl. lia.
  - specialize (IH Hin). lia.
Qed.

Lemma occurrences_pos (tag : string) (op : OperationState)
    (operations : list OperationState) :
  op ∈ operations → tag ∈ default [] (tags op) →
  0 < occurrences tag operations.
Proof.
  induction operations as [|op' ops IH]; [by intros []%elem_of_nil|].
  intros [->|Hin]%elem_of_cons Htag; cbn.
  - pose proof (count_pos _ _ Htag). lia.
  - specialize (IH Hin Htag). lia.
Qed.

Lemma tagMenuItems_keys (props : Props) (operations : list OperationState)
    (selected : JsSet) :
  key <$> tagMenuItems props operations selected
  = List.filter (fun k => negb (Set_has k selected)) (tagCounts operations).*1.
Proof.
  unfold tagMenuItems.
  induction (tagCounts operations) as [|[k v] m IH]; [done|].
  cbn. destruct (negb (Set_has k selected)); cbn; by rewrite IH.
Qed.

(** X24: The menu of the tag filter offers each tag of the operations that is
    not in the filter, once, with the
    number of its occurrences in the tag lists; choosing an entry adds
    that tag.  The button that opens the menu is missing exactly when
    every tag of every operation is in the filter already, and the tags of
    the filter are listed as they are. *)
Theorem tag_menu_offers_the_unselected_tags
    (props : Props) (operations : list OperationState) (selected : JsSet) :
  let items := tagMenuItems props operations selected in
  let panel := renderOperationTagFilterPanel props operations selected in
  NoDup (key <$> items)
  ∧ (∀ tagName, tagName ∈ key <$> items ↔
       (tagName ∉ selected)
       ∧ ∃ op, op ∈ operations ∧ tagName ∈ default [] (tags op))
  ∧ (∀ item, item ∈ items →
       0 < occurrences (key item) operations
       ∧ text item =
           key item +:+ " (" +:+ pretty (occurrences (key item) operations)
             +:+ ")"
       ∧ onClick item = addTagName props (key item))
  ∧ (addTagButton panel = None ↔
       ∀ op tagName, op ∈ operations → tagName ∈ default [] (tags op) →
                     tagName ∈ selected)
  ∧ (∀ menu, addTagButton panel = Some menu → menu = items)
  ∧ children <$> selectedTagItems panel = selected.
Proof.
  cbn zeta.
  destruct (tagCounts_acc operations [] (NoDup_nil_2))
    as (Hnd & Hel & Hget).
  cbn zeta in Hnd, Hel, Hget. fold (tagCounts operations) in Hnd, Hel, Hget.
  assert (∀ tagName,
            tagName ∈ key <$> tagMenuItems props operations selected ↔
            (tagName ∉ selected)
            ∧ ∃ op, op ∈ operations ∧ tagName ∈ default [] (tags op))
    as Hkeys.
  { intros tagName.
    rewrite tagMenuItems_keys, list_elem_of_In, filter_In,
      <- list_elem_of_In, Hel, negb_true_iff.
    unfold Set_has. rewrite bool_decide_eq_false, elem_of_nil. tauto. }
  split_and!.
  - rewrite tagMenuItems_keys, NoDup_ListNoDup.
    apply List.NoDup_filter. by apply NoDup_ListNoDup.
  - done.
  - intros item. unfold tagMenuItems.
    rewrite list_elem_of_omap. intros ([k v] & Hin & Hitem).
    pose proof (Map_get_elem_of k v _ Hnd Hin) as Hv.
    specialize (Hget k). rewrite Hv in Hget. cbn in Hget.
    destruct (negb (Set_has k selected)); [|done].
    injection Hitem as <-. cbn [key text onClick]. rewrite <- Hget.
    split_and!; [|done..].
    assert (k ∈ (tagCounts operations).*1) as Hk.
    { apply list_elem_of_fmap. by exists (k, v). }
    apply Hel in Hk as [[]%elem_of_nil|(op & Hop & Htag)].
    rewrite Hget. by apply (occurrences_pos k op).
  - unfold renderOperationTagFilterPanel. cbn [addTagButton].
    destruct (tagMenuItems props operations selected) as [|item items] eqn:E.
    + cbn. split; [|done]. intros _ op tagName Hop Htag.
      destruct (decide (tagName ∈ selected)) as [|Hnot]; [done|].
      assert (tagName ∈ key <$> @nil MenuItem) as []%elem_of_nil.
      apply Hkeys. split; [done|]. by exists op.
    + cbn. split; [done|]. intros Hall.
      assert (key item ∈ key <$> item :: items) as Hin by (by left).
      apply Hkeys in Hin as (Hnot & op & Hop & Htag).
      destruct Hnot. by apply (Hall op).
  - unfold renderOperationTagFilterPanel. cbn [addTagButton].
    intros menu. destruct (length _ =? 0); [done|]. by intros [= <-].
  - unfold renderOperationTagFilterPanel. cbn [selectedTagItems].
    change (List.map ?f ?l) with (f <$> l).
    rewrite <- list_fmap_compose. cbn. by rewrite list_fmap_id.
Qed.

(** The argument that an assignment of the dialog stands for. *)
Local Abbreviation argOf a :=
  (if isValueUsed a then value (constantValue a)
   else source (resourceName a)).

Lemma opArgs_forEach_spec (dialogState : IEditOpStepDialogState)
    (inputs : list OperationInput) :
  ∀ index opArgs,
  length inputs + index ≤ length (inputAssignments dialogState) →
  ∃ opArgs',
    opArgs_forEach inputs index dialogState opArgs = Some opArgs'
    ∧ (∀ k, is_Some (ownArgs opArgs' !! k) ↔
            is_Some (ownArgs opArgs !! k)
            ∨ (k ∈ input_name <$> inputs ∧ k ≠ "__proto__"))
    ∧ (is_Some (protoArg opArgs') ↔
         is_Some (protoArg opArgs) ∨ "__proto__" ∈ input_name <$> inputs)
    ∧ (∀ k, k ∉ input_name <$> inputs →
            ownArgs opArgs' !! k = ownArgs opArgs !! k)
    ∧ ("__proto__" ∉ input_name <$> inputs →
         protoArg opArgs' = protoArg opArgs)
    ∧ ∀ i input a,
        inputs !! i = Some input →
        inputAssignments dialogState !! (index + i) = Some a →
        (∀ j later, i < j → inputs !! j = Some later →
                    input_name later ≠ input_name input) →
        if String.eqb (input_name input) "__proto__"
        then protoArg opArgs' = Some (argOf a)
        else ownArgs opArgs' !! input_name input = Some (argOf a).
Proof.
  induction inputs as [|input inputs IH]; intros index opArgs Hlen;
    cbn [opArgs_forEach].
  - exists opArgs. split_and!; [done| | |done|done|by intros [] ???].
    + intros k. cbn. rewrite elem_of_nil. tauto.
    + cbn. rewrite elem_of_nil. tauto.
  - cbn [length] in Hlen.
    destruct (inputAssignments dialogState !! index) as [a0|] eqn:Ha0.
    2: { apply lookup_ge_None in Ha0. lia. }
    destruct (IH (S index) (opArgs_set (input_name input) (argOf a0) opArgs))
      as (opArgs' & Hrun & Hdom & Hproto & Hother & Hsame & Hget); [lia|].
    exists opArgs'. rewrite fmap_cons.
    unfold opArgs_set in Hdom, Hproto, Hother, Hsame.
    split_and!; [done| | | | |].
    + intros k. rewrite Hdom, elem_of_cons.
      destruct (String.eqb_spec (input_name input) "__proto__") as [Hp|Hp];
        cbn [ownArgs].
      * rewrite Hp. intuition congruence.
      * destruct (decide (k = input_name input)) as [->|Hne].
        -- rewrite lookup_insert_eq. split; [|by left]. intros _. right.
           split; [by left|done].
        -- rewrite lookup_insert_ne by done. intuition congruence.
    + rewrite Hproto, elem_of_cons.
      destruct (String.eqb_spec (input_name input) "__proto__") as [Hp|Hp];
        cbn [protoArg].
      * split; [|by left]. intros _. right. by left.
      * intuition congruence.
    + intros k [Hne Hk]%not_elem_of_cons. rewrite Hother by done.
      destruct (String.eqb_spec (input_name input) "__proto__") as [Hp|Hp];
        cbn [ownArgs]; [done|]. by rewrite lookup_insert_ne.
    + intros [Hne Hk]%not_elem_of_cons. rewrite Hsame by done.
      destruct (String.eqb_spec (input_name input) "__proto__") as [Hp|Hp];
        cbn [protoArg]; [congruence|done].
    + intros [|i] input' a Hi Ha Hlast; cbn in Hi.
      * injection Hi as <-. rewrite Nat.add_0_r, Ha0 in Ha.
        injection Ha as <-.
        assert (input_name input ∉ input_name <$> inputs) as Hnot.
        { intros (later & Heq & [j Hj]%list_elem_of_lookup)%list_elem_of_fmap.
          by apply (Hlast (S j) later); [lia| |]. }
        destruct (String.eqb_spec (input_name input) "__proto__") as [Hp|Hp].
        -- rewrite Hsame; [done|]. by rewrite <- Hp.
        -- rewrite Hother by done. cbn [ownArgs]. by rewrite lookup_insert_eq.
      * apply (Hget i input' a Hi).
        -- by replace (S index + i) with (index + S i) by lia.
        -- intros j later Hj Hlater.
           apply (Hlast (S j) later); [lia|done].
Qed.

Section Dialog.
Variable getDialogId : option string → bool → string.

(** X25: Closing the dialog always saves its state first, under the dialog
    id of the selected operation.  Without an action id nothing else
    happens.  With one, and with the selected operation among the
    operations and an assignment for each of its inputs, exactly one more
    action follows: the new resource is set to the operation applied to
    the argument object, whose own properties are the input names other
    than [__proto__], each holding a constant where the assignment uses a
    value and a resource otherwise, the last input of a name deciding; an
    input named [__proto__] gets no property: its argument becomes the
    prototype of the argument object. *)
Theorem apply_passes_one_argument_per_input
    (props : Props) (actionId : option string)
    (dialogState : IEditOpStepDialogState) (op : OperationState)
    (ins : list OperationInput) :
  getSelectedOperation props = Some op →
  inputs op = Some ins →
  length ins ≤ length (inputAssignments dialogState) →
  let saved :=
    setDialogState (getDialogId (selectedOperationName props) true)
      dialogState in
  (given actionId = false →
     handleAddOpStepDialogClosed getDialogId props actionId dialogState
     = ([saved], None))
  ∧ (given actionId = true →
     ∃ opArgs title,
       handleAddOpStepDialogClosed getDialogId props actionId dialogState
       = ([saved;
           setWorkspaceResource (newResourceName props) (name op) opArgs
             title], None)
       ∧ Some (name op) = selectedOperationName props
       ∧ (∀ k, is_Some (ownArgs opArgs !! k) ↔
               k ∈ input_name <$> ins ∧ k ≠ "__proto__")
       ∧ (is_Some (protoArg opArgs) ↔ "__proto__" ∈ input_name <$> ins)
       ∧ ∀ i input a,
           ins !! i = Some input →
           inputAssignments dialogState !! i = Some a →
           (∀ j later, i < j → ins !! j = Some later →
                       input_name later ≠ input_name input) →
           if String.eqb (input_name input) "__proto__"
           then protoArg opArgs = Some (argOf a)
           else ownArgs opArgs !! input_name input = Some (argOf a)).
Proof.
  intros Hop Hins Hlen. cbn zeta. unfold handleAddOpStepDialogClosed.
  rewrite Hop, Hins. split; intros ->; [done|].
  destruct (opArgs_forEach_spec dialogState ins 0
              {| ownArgs := ∅; protoArg := None |})
    as (opArgs & -> & Hdom & Hproto & _ & _ & Hget); [lia|].
  eexists _, _. split; [reflexivity|]. split_and!.
  - unfold getSelectedOperation in Hop.
    destruct (given (selectedOperationName props)); [|done].
    apply find_some in Hop as [_ Hname]. by apply bool_decide_eq_true in Hname.
  - intros k. rewrite Hdom. cbn [ownArgs]. rewrite lookup_empty.
    split; [|by right]. by intros [[? [=]]|].
  - rewrite Hproto. cbn [protoArg]. split; [|by right]. by intros [[? [=]]|].
  - done.
Qed.

(** X26: With an action id the handler relies on the selection: when no
    operation carries the selected name, or the operation has no inputs
    array, or an input has no assignment, it ends in a [TypeError] after
    the state of the dialog was saved, and no resource is set. *)
Theorem apply_without_operation_fails_after_saving
    (props : Props) (actionId : option string)
    (dialogState : IEditOpStepDialogState) :
  given actionId = true →
  (getSelectedOperation props = None
   ∨ ∃ op, getSelectedOperation props = Some op
           ∧ (inputs op = None
              ∨ ∃ ins, inputs op = Some ins
                       ∧ length (inputAssignments dialogState) < length ins)) →
  handleAddOpStepDialogClosed getDialogId props actionId dialogState
  = ([setDialogState (getDialogId (selectedOperationName props) true)
        dialogState], Some TypeError).
Proof.
  intros Hid Hcase. unfold handleAddOpStepDialogClosed. rewrite Hid.
  destruct Hcase as [->|(op & -> & [->|(ins & -> & Hlen)])]; [done..|].
  assert (∀ (l : list OperationInput) index opArgs,
            index ≤ length (inputAssignments dialogState) →
            length (inputAssignments dialogState) < length l + index →
            opArgs_forEach l index dialogState opArgs = None) as Hnone.
  { induction l as [|input l IH]; intros index opArgs Hle Hlt; cbn in *;
      [lia|].
    destruct (inputAssignments dialogState !! index) eqn:Hi; [|done].
    apply lookup_lt_Some in Hi. apply IH; lia. }
  rewrite Hnone; [done|lia..].
Qed.

End Dialog.

Lemma apply_passes_one_argument_per_input_witness :
  ∃ opArgs title,
    handleAddOpStepDialogClosed exampleDialogId exampleProps (Some "apply")
      exampleDialogState
    = ([setDialogState "addOpStep_read_netcdf" exampleDialogState;
        setWorkspaceResource "res_1" "read_netcdf" opArgs title], None)
    ∧ ownArgs opArgs !! "file" = Some (value (Js.Str "sst.nc")).
Proof.
  destruct (proj2 (apply_passes_one_argument_per_input exampleDialogId
                     exampleProps (Some "apply") exampleDialogState
                     {| name := "read_netcdf";
                        tags := Some ["input"; "netcdf"];
                        inputs := Some [ {| input_name := "file" |};
                                         {| input_name := "drop_variables" |} ] |}
                     [ {| input_name := "file" |};
                       {| input_name := "drop_variables" |} ]
                     eq_refl eq_refl (le_n 2)) eq_refl)
    as (opArgs & title & Hrun & _ & _ & _ & Hget).
  exists opArgs, title. split; [exact Hrun|].
  apply (Hget 0 {| input_name := "file" |}
           {| isValueUsed := true; constantValue := Js.Str "sst.nc";
              resourceName := Js.Null |}); [reflexivity..|].
  intros [|[|j]] later Hj; cbn; [lia| |done].
  intros [= <-]. discriminate.
Defined.

Lemma apply_without_operation_fails_after_saving_witness :
  let props := {| operations := None;
                  selectedOperationName := Some "read_netcdf";
                  operationFilterTags := None;
                  operationFilterExpr := None;
                  newResourceName := "res_1" |} in
  handleAddOpStepDialogClosed exampleDialogId props (Some "apply")
    exampleDialogState
  = ([setDialogState "addOpStep_read_netcdf" exampleDialogState],
     Some TypeError).
Proof.
  intros props.
  apply (apply_without_operation_fails_after_saving exampleDialogId props
           (Some "apply") exampleDialogState); [reflexivity|].
  left. reflexivity.
Defined.

End OperationsPanelProperties.

(** ** The action row of the variables panel *)

Section VariablesPanelProperties.
Import VariablesPanel.

(** X27: The button that adds a layer is enabled exactly when a variable
    is selected that has at least two dimensions and an image layout; the
    selected resource plays no part in that.  Its handler asserts a
    selected resource as well: with the button enabled a click adds a
    layer for the selected variable when a resource is selected and fails
    the assertion when none is. *)
Theorem enabled_add_layer_button_needs_a_resource
    {R L : Type} (props : Props R L) :
  (addLayerButtonDisabled props = false ↔
     ∃ variable n,
       selectedVariable props = Some variable
       ∧ ndim variable = Some n ∧ (2 <= n)%Q
       ∧ is_Some (imageLayout variable))
  ∧ (addLayerButtonDisabled props = false →
     ∃ variable,
       selectedVariable props = Some variable
       ∧ (∀ resource, selectedResource props = Some resource →
            handleAddVariableLayer props
            = inr (addVariableLayer None resource variable))
       ∧ (selectedResource props = None →
            handleAddVariableLayer props = inl AssertionError)).
Proof.
  assert (addLayerButtonDisabled props = false ↔
            ∃ variable n,
              selectedVariable props = Some variable
              ∧ ndim variable = Some n ∧ (2 <= n)%Q
              ∧ is_Some (imageLayout variable)) as Henabled.
  { unfold addLayerButtonDisabled, isSpatialVariable.
    rewrite negb_false_iff. split.
    - destruct (selectedVariable props) as [variable|]; [|done].
      intros [Hn Hlayout%bool_decide_eq_true]%andb_true_iff.
      destruct (ndim variable) as [n|] eqn:Hndim; [|done].
      exists variable, n. split_and!; [done..| |done].
      by apply Qle_bool_iff.
    - intros (variable & n & -> & -> & Hn & Hlayout).
      apply andb_true_iff. split; [by apply Qle_bool_iff|].
      by apply bool_decide_eq_true. }
  split; [exact Henabled|].
  intros (variable & n & Hvar & _ & _ & [layout Hlayout])%Henabled.
  exists variable. unfold handleAddVariableLayer. rewrite Hvar.
  split_and!; [done| |].
  - intros resource ->. cbn. by rewrite Hlayout.
  - by intros ->.
Qed.

Lemma enabled_add_layer_button_needs_a_resource_witness :
  let variable :=
    {| name := "sst"; ndim := Some 3%Q; imageLayout := Some tt |} in
  let props : Props string unit :=
    {| selectedResource := None; selectedVariable := Some variable;
       showSelectedVariableLayer := true |} in
  addLayerButtonDisabled props = false
  ∧ handleAddVariableLayer props = inl AssertionError.
Proof.
  intros variable props. split; [reflexivity|].
  destruct (proj2 (enabled_add_layer_button_needs_a_resource props) eq_refl)
    as (v & _ & _ & Hnone).
  apply Hnone. reflexivity.
Defined.

End VariablesPanelProperties.

